(** * Skyecodev1.py: the rotation-synchronised frame-slice pipeline

    A shallow embedding of the POV pipeline of [src/Skyecodev1.py]: the capture
    loop, the frame encoder, the hall-sensor loop, the Bluetooth sender and the
    call session that starts and stops the two loops.

    Python code with effects is written in a small monad [M] that threads the
    module's global variables, appends the calls made to the outside world to
    a trace, and carries exceptions, with [try_except] and [try_finally]
    following Python's semantics.  What the outside world answers (whether a
    socket call raises, what the hall sensor reads, what the speech recogniser
    hears) is given to each function as an explicit outcome.

    The two worker threads and the session share the globals.  A worker moves
    by whole passes of its [while] loop, reading its flag at the head of the
    loop as the source does; a schedule lists, in order, the passes of the
    workers and the [await]s of the session that come back.  A computation
    whose loop is still running when the schedule ends is [Pending]. *)

From Stdlib Require Import String Bool Arith ZArith Lia List SpecFloat.
Import ListNotations.
Local Open Scope Z_scope.

Set Implicit Arguments.

(** ** Python values and exceptions *)

(** A [bytes] object. *)
Definition bytes := list Byte.byte.

(** The classes below [Exception] that the pipeline can meet. *)
Inductive exception : Type :=
| BluetoothError            (* bluetooth.BluetoothError, an IOError *)
| NameError (name : string) (* a global name that is not bound *)
| ScreenShotError           (* mss: the capture backend failed *)
| cv2_error                 (* cv2.error *)
| OSError
| RuntimeError
| WaitTimeoutError.         (* speech_recognition: nobody spoke *)

(** [BaseException]: [Exception] and the classes beside it. *)
Inductive base_exception : Type :=
| Exception (e : exception)
| KeyboardInterrupt
| CancelledError.           (* asyncio: the task was cancelled *)

Definition is_BluetoothError (e : base_exception) : bool :=
  match e with Exception BluetoothError => true | _ => false end.

Definition is_Exception (e : base_exception) : bool :=
  match e with Exception _ => true | _ => false end.

(** How a piece of code comes back: with a value, with an exception, or not
    yet ([Pending]: it is still inside a loop or blocked when the observation
    ends). *)
Inductive result (A : Type) : Type :=
| Return (a : A)
| Raise (e : base_exception)
| Pending.
Arguments Return {A} a.
Arguments Raise {A} e.
Arguments Pending {A}.

(** ** Configuration (lines 19-58) *)

Definition BLUETOOTH_ADDRESS : string := "XX:XX:XX:XX:XX:XX".
Definition HALL_SENSOR_PIN : Z := 17.
Definition TOTAL_ROTATIONS : Z := 10.

(** The global flags and the rotation counter (lines 55-57). *)
Record globals : Type := {
  video_capture_running : bool;
  motor_running : bool;
  current_rotation : Z
}.

(** The module's globals once the file has been loaded. *)
Definition module_globals : globals :=
  {| video_capture_running := false; motor_running := false; current_rotation := 0 |}.

Definition set_video_capture_running (b : bool) (g : globals) : globals :=
  {| video_capture_running := b;
     motor_running := motor_running g;
     current_rotation := current_rotation g |}.

Definition set_motor_running (b : bool) (g : globals) : globals :=
  {| video_capture_running := video_capture_running g;
     motor_running := b;
     current_rotation := current_rotation g |}.

Definition set_current_rotation (v : Z) (g : globals) : globals :=
  {| video_capture_running := video_capture_running g;
     motor_running := motor_running g;
     current_rotation := v |}.

(** ** Calls to the outside world *)

Inductive thread_name : Type := MainThread | VideoThread | MotorThread.

Inductive event : Type :=
| LogInfo (msg : string)
| LogError (msg : string) (e : base_exception)
| BtSocket                               (* bluetooth.BluetoothSocket(RFCOMM) *)
| BtConnect (addr : string) (port : Z)   (* sock.connect((addr, port)) *)
| BtSend (data : bytes)                  (* sock.send(data) *)
| BtClose                                (* sock.close() *)
| Grab                                   (* sct.grab(monitor) *)
| Sleep (ms : Z)                         (* time.sleep *)
| GpioSetup (pin : Z)
| GpioInput (pin : Z) (high : bool)
| StoreRotation (v : Z)                  (* current_rotation = v *)
| StoreVideoFlag (b : bool)              (* video_capture_running = b *)
| StoreMotorFlag (b : bool)              (* motor_running = b *)
| ThreadStart (t : thread_name)
| ThreadJoin (t : thread_name)
| BrowserOpen (url : string)
| Pkill
| CameraStop
| GpioCleanup.

(** ** The monad: state, trace, exceptions *)

(** A piece of Python code run from a state [St]: the state it leaves, the
    calls it made, and how it came back.  Code of a thread runs on the
    module's [globals]; the session runs on the whole [system] below. *)
Definition M (St A : Type) : Type := St -> St * list event * result A.

Definition ret {St A} (a : A) : M St A := fun s => (s, [], Return a).

Definition bind {St A B} (m : M St A) (k : A -> M St B) : M St B := fun s =>
  match m s with
  | (s1, t1, Return a) =>
      match k a s1 with (s2, t2, r) => (s2, t1 ++ t2, r) end
  | (s1, t1, Raise e) => (s1, t1, Raise e)
  | (s1, t1, Pending) => (s1, t1, Pending)
  end.

Definition raise {St A} (e : base_exception) : M St A := fun s => (s, [], Raise e).

Definition pending {St A} : M St A := fun s => (s, [], Pending).

Definition emit {St} (ev : event) : M St unit := fun s => (s, [ev], Return tt).

Definition read_state {St} : M St St := fun s => (s, [], Return s).

Definition write_state {St} (f : St -> St) : M St unit :=
  fun s => (f s, [], Return tt).

Declare Scope py_scope.
Delimit Scope py_scope with py.
Notation "x <- c1 ;; c2" := (bind c1 (fun x => c2))
  (at level 100, c1 at next level, right associativity) : py_scope.
Notation "c1 ;; c2" := (bind c1 (fun _ => c2))
  (at level 100, right associativity) : py_scope.
Local Open Scope py_scope.

(** [try: body / except ...: handler].  [handler e] is [None] when no
    [except] clause matches [e]; the exception then goes on. *)
Definition try_except {St A} (body : M St A)
    (handler : base_exception -> option (M St A)) : M St A :=
  fun s =>
    match body s with
    | (s1, t1, Raise e) =>
        match handler e with
        | Some h => match h s1 with (s2, t2, r) => (s2, t1 ++ t2, r) end
        | None => (s1, t1, Raise e)
        end
    | done => done
    end.

(** [try: body / finally: fin].  Once [body] has come back, [fin] runs; what
    [body] returned or raised stands unless [fin] does not return. *)
Definition try_finally {St A} (body : M St A) (fin : M St unit) : M St A := fun s =>
  match body s with
  | (s1, t1, Pending) => (s1, t1, Pending)
  | (s1, t1, r) =>
      match fin s1 with
      | (s2, t2, Return _) => (s2, t1 ++ t2, r)
      | (s2, t2, Raise e') => (s2, t1 ++ t2, Raise e')
      | (s2, t2, Pending) => (s2, t1 ++ t2, Pending)
      end
  end.

(** A call to the outside world: it is recorded, and raises when the world
    says so. *)
Definition external {St} (ev : event) (outcome : option exception) : M St unit :=
  emit ev ;;
  match outcome with
  | Some e => raise (Exception e)
  | None => ret tt
  end.

Definition logger_info {St} (msg : string) : M St unit := emit (LogInfo msg).
Definition logger_error {St} (msg : string) (e : base_exception) : M St unit :=
  emit (LogError msg e).
Definition time_sleep {St} (ms : Z) : M St unit := emit (Sleep ms).

(** ** Bluetooth communication (lines 186-197) *)

(** What the Bluetooth stack does during one call: for each socket operation,
    the exception it raises, if any. *)
Record bt_outcome : Type := {
  bt_socket : option exception;
  bt_connect : option exception;
  bt_send : option exception;
  bt_close : option exception
}.

Definition bt_ok : bt_outcome :=
  {| bt_socket := None; bt_connect := None; bt_send := None; bt_close := None |}.

Definition send_to_seeed_bluetooth (o : bt_outcome) (data : bytes) : M globals unit :=
  external BtSocket (bt_socket o) ;;
  try_finally
    (try_except
       (external (BtConnect BLUETOOTH_ADDRESS 1) (bt_connect o) ;;
        external (BtSend data) (bt_send o))
       (fun e =>
          if is_BluetoothError e then Some (logger_error "Bluetooth error" e)
          else if is_Exception e then Some (logger_error "Error sending data to Seeed" e)
          else None))
    (external BtClose (bt_close o)).

(** ** Video processing (lines 144-163) *)

(** A numpy array of [uint8]: its shape (rows, columns, channels) and its
    buffer in C order. *)
Record ndarray : Type := {
  nd_rows : nat;
  nd_cols : nat;
  nd_channels : nat;
  nd_data : bytes
}.

Definition tobytes (a : ndarray) : bytes := nd_data a.

(** What [mss] answers to one [sct.grab(monitor)]. *)
Inductive capture_outcome : Type :=
| Grabbed (pixels : bytes)      (* the BGRA pixels of the 640x480 region *)
| GrabRaises (e : exception).

(** [np.array(screenshot)] of the monitor of line 147: 480 rows of 640 BGRA
    pixels. *)
Definition screenshot_array (pixels : bytes) : ndarray :=
  {| nd_rows := 480; nd_cols := 640; nd_channels := 4; nd_data := pixels |}.

Definition capture_browser_window (c : capture_outcome) : M globals ndarray :=
  emit Grab ;;
  match c with
  | Grabbed pixels => ret (screenshot_array pixels)
  | GrabRaises e => raise (Exception e)
  end.

(** Nearest-neighbour sampling, one of OpenCV's interpolations: destination
    sample (r, c, k) of a [dh] x [dw] picture reads the source pixel at the
    scaled position. *)
Definition INTER_NEAREST (src : ndarray) (dsize : nat * nat) (r c k : nat) : Byte.byte :=
  let '(dw, dh) := dsize in
  let sr := Nat.min (r * nd_rows src / dh) (nd_rows src - 1) in
  let sc := Nat.min (c * nd_cols src / dw) (nd_cols src - 1) in
  nth ((sr * nd_cols src + sc) * nd_channels src + k) (nd_data src) Byte.x00.

(** The most channels an OpenCV matrix element holds. *)
Definition CV_CN_MAX : nat := 512.

(** The arrays [cv2.resize] accepts: not empty along any axis, and with a
    last axis OpenCV can take as the channels of a pixel. *)
Definition resizable (src : ndarray) : bool :=
  (negb (nd_rows src =? 0) && negb (nd_cols src =? 0) &&
   negb (nd_channels src =? 0) && (nd_channels src <=? CV_CN_MAX))%nat.

Definition lift {St A} (r : result A) : M St A := fun s => (s, [], r).

(** The payload length of an encoder result, when it produced one. *)
Definition payload_length (r : result bytes) : option nat :=
  match r with
  | Return b => Some (length b)
  | _ => None
  end.

(** How the module binds the names its functions look up at call time.  The
    file defines no [get_frame_slice] and imports none, so the binding is a
    parameter of the model: [None] is the module as it is written. *)
Record namespace : Type := {
  ns_get_frame_slice : option (Z -> bytes)
}.

(** What one pass of the hall-sensor loop meets: the pin level and the
    Bluetooth stack's behaviour if a slice is sent. *)
Record motor_poll : Type := {
  hall_high : bool;
  poll_bt : bt_outcome
}.

(** ** Threads *)

Inductive thread_status : Type :=
| NotStarted
| Alive
| Finished                       (* its target function returned *)
| Died (e : base_exception).     (* its target function raised *)

(** The process during a call: the module's globals and the two worker
    threads of [tavus_cvi_meeting]. *)
Record system : Type := {
  sys_globals : globals;
  video_thread : thread_status;
  motor_thread : thread_status
}.

Definition module_loaded : system :=
  {| sys_globals := module_globals; video_thread := NotStarted; motor_thread := NotStarted |}.

Definition with_globals (g : globals) (s : system) : system :=
  {| sys_globals := g; video_thread := video_thread s; motor_thread := motor_thread s |}.

Definition status_of (t : thread_name) (s : system) : thread_status :=
  match t with
  | VideoThread => video_thread s
  | MotorThread => motor_thread s
  | MainThread => Alive
  end.

Definition set_status (t : thread_name) (st : thread_status) (s : system) : system :=
  match t with
  | VideoThread =>
      {| sys_globals := sys_globals s; video_thread := st; motor_thread := motor_thread s |}
  | MotorThread =>
      {| sys_globals := sys_globals s; video_thread := video_thread s; motor_thread := st |}
  | MainThread => s
  end.

(** Code of one thread run inside the process. *)
Definition in_globals {A} (m : M globals A) : M system A := fun s =>
  match m (sys_globals s) with
  | (g, t, r) => (with_globals g s, t, r)
  end.

(** What one [listen_for_phrase(EXIT_PHRASE, timeout=0.1)] comes back with. *)
Inductive listen_outcome : Type :=
| Heard
| NotHeard
| ListenRaises (e : base_exception).

(** What happens next while the call is on: one of the worker threads gets
    through one pass of its loop, or the session's [await] comes back. *)
Inductive action : Type :=
| VideoTurn (c : capture_outcome) (o : bt_outcome)
| MotorTurn (p : motor_poll)
| ListenTurn (l : listen_outcome).

(** The pass each worker is in the middle of when the session clears the
    flags, if it is in one. *)
Record inflight : Type := {
  inflight_video : option (capture_outcome * bt_outcome);
  inflight_motor : option motor_poll
}.

Definition no_inflight : inflight :=
  {| inflight_video := None; inflight_motor := None |}.

Definition store_video_capture_running (b : bool) : M globals unit :=
  write_state (set_video_capture_running b) ;; emit (StoreVideoFlag b).

Definition store_motor_running (b : bool) : M globals unit :=
  write_state (set_motor_running b) ;; emit (StoreMotorFlag b).

Section Pipeline.

(** The value OpenCV's interpolation gives destination sample (r, c, k); the
    arithmetic of the default [INTER_LINEAR] lives in the C++ library. *)
Variable interpolate : ndarray -> nat * nat -> nat -> nat -> nat -> Byte.byte.

Variable ns : namespace.

(** [cv2.resize(src, (width, height))]: the source must have a row, a
    column and a channel, and no more channels than OpenCV packs into one
    matrix element; any other array is refused with [cv2.error].  The result
    has the requested size and the source's channels. *)
Definition cv2_resize (src : ndarray) (dsize : nat * nat) : result ndarray :=
  let '(dw, dh) := dsize in
  if negb (resizable src)
  then Raise (Exception cv2_error)
  else Return
    {| nd_rows := dh; nd_cols := dw; nd_channels := nd_channels src;
       nd_data :=
         flat_map (fun r =>
           flat_map (fun c =>
             map (fun k => interpolate src dsize r c k) (seq 0 (nd_channels src)))
             (seq 0 dw))
           (seq 0 dh) |}.

Definition process_frame_for_pov (frame : ndarray) : result bytes :=
  match cv2_resize frame (64, 64)%nat with
  | Return processed_frame => Return (tobytes processed_frame)
  | Raise e => Raise e
  | Pending => Pending
  end.

(** One pass of the body of the [while] of [capture_and_process_video]. *)
Definition capture_and_process_video_body (c : capture_outcome) (o : bt_outcome) : M globals unit :=
  frame <- capture_browser_window c ;;
  processed_frame <- lift (process_frame_for_pov frame) ;;
  send_to_seeed_bluetooth o processed_frame ;;
  time_sleep 10.

(** ** Motor synchronisation (lines 167-182) *)

(** The call [get_frame_slice(i)]: the name is looked up in the module. *)
Definition get_frame_slice (i : Z) : M globals bytes :=
  match ns_get_frame_slice ns with
  | Some f => ret (f i)
  | None => raise (Exception (NameError "get_frame_slice"))
  end.

Definition send_next_frame_slice (o : bt_outcome) : M globals unit :=
  g <- read_state ;;
  frame_slice <- get_frame_slice (current_rotation g) ;;
  send_to_seeed_bluetooth o frame_slice.

(** One pass of the body of the [while] of [motor_sync]. *)
Definition motor_sync_body (p : motor_poll) : M globals unit :=
  emit (GpioInput HALL_SENSOR_PIN (hall_high p)) ;;
  (if hall_high p then
     g <- read_state ;;
     let v := (current_rotation g + 1) mod TOTAL_ROTATIONS in
     write_state (set_current_rotation v) ;;
     emit (StoreRotation v) ;;
     send_next_frame_slice (poll_bt p)
   else ret tt) ;;
  time_sleep 1.


(** ** Graceful shutdown (lines 201-208) *)

Definition cleanup : M globals unit :=
  store_video_capture_running false ;;
  store_motor_running false ;;
  emit CameraStop ;;
  emit GpioCleanup ;;
  logger_info "Cleanup complete. Exiting.".

(** ** The call session (lines 106-140) *)

(** The body of a worker's loop run to its end inside the process: an
    exception that leaves it ends the thread and nothing else. *)
Definition thread_body (t : thread_name) (body : M globals unit) : M system unit :=
  fun s =>
    match body (sys_globals s) with
    | (g, tr, Return _) => (with_globals g s, tr, Return tt)
    | (g, tr, Raise e) => (set_status t (Died e) (with_globals g s), tr, Return tt)
    | (g, tr, Pending) => (with_globals g s, tr, Pending)
    end.

(** One turn of a worker whose target is [while flag: body]: the flag is
    read at the head of the loop. *)
Definition thread_turn (t : thread_name) (flag : globals -> bool)
    (body : M globals unit) : M system unit :=
  s <- read_state ;;
  match status_of t s with
  | Alive =>
      if flag (sys_globals s) then thread_body t body
      else write_state (set_status t Finished)
  | _ => ret tt
  end.

Definition video_turn (c : capture_outcome) (o : bt_outcome) : M system unit :=
  thread_turn VideoThread video_capture_running (capture_and_process_video_body c o).

Definition motor_turn (p : motor_poll) : M system unit :=
  thread_turn MotorThread motor_running (motor_sync_body p).

(** [threading.Thread(target=...)] and [start()]; [motor_sync] sets the
    pin up before its loop. *)
Definition thread_start (t : thread_name) : M system unit :=
  emit (ThreadStart t) ;;
  write_state (set_status t Alive) ;;
  match t with
  | MotorThread => emit (GpioSetup HALL_SENSOR_PIN)
  | _ => ret tt
  end.

(** [t.join()]: the pass the worker is in runs to its end, the worker then
    reads its flag; [join] comes back once the thread has ended, and does
    not while the loop goes on. *)
Definition thread_join (t : thread_name) (flag : globals -> bool)
    (pass : option (M globals unit)) : M system unit :=
  s <- read_state ;;
  match status_of t s with
  | NotStarted => raise (Exception RuntimeError)
  | Alive =>
      match pass with
      | Some body => thread_body t body
      | None => ret tt
      end ;;
      thread_turn t flag pending ;;
      emit (ThreadJoin t)
  | _ => emit (ThreadJoin t)
  end.

Definition listen_for_phrase (l : listen_outcome) : M system bool :=
  match l with
  | Heard => ret true
  | NotHeard => ret false
  | ListenRaises e => raise e
  end.

(** The [while True] of the session, with the workers' turns that fall
    between two of its [await]s.  When the schedule ends the loop is still
    running. *)
Fixpoint call_loop (sched : list action) : M system unit :=
  match sched with
  | [] => pending
  | VideoTurn c o :: rest => video_turn c o ;; call_loop rest
  | MotorTurn p :: rest => motor_turn p ;; call_loop rest
  | ListenTurn l :: rest =>
      heard <- listen_for_phrase l ;;
      if heard then logger_info "Exit phrase detected. Ending call."
      else call_loop rest
  end.

Definition tavus_cvi_meeting (conversation_url : string) (sched : list action)
    (fl : inflight) : M system unit :=
  logger_info "Starting Tavus CVI meeting..." ;;
  emit (BrowserOpen conversation_url) ;;
  in_globals (store_video_capture_running true) ;;
  thread_start VideoThread ;;
  in_globals (store_motor_running true) ;;
  thread_start MotorThread ;;
  try_finally
    (try_except
       (call_loop sched)
       (fun e =>
          if is_Exception e
          then Some (logger_error "Error in Tavus CVI meeting" e)
          else None))
    (in_globals (store_video_capture_running false) ;;
     in_globals (store_motor_running false) ;;
     thread_join VideoThread video_capture_running
       (option_map (fun co => capture_and_process_video_body (fst co) (snd co))
                   (inflight_video fl)) ;;
     thread_join MotorThread motor_running
       (option_map motor_sync_body (inflight_motor fl)) ;;
     emit Pkill ;;
     logger_info "Call ended.").

End Pipeline.

(** The module as it is written: no [get_frame_slice] is bound. *)
Definition module_namespace : namespace := {| ns_get_frame_slice := None |}.

(** ** Reading traces *)

(** The values stored into [current_rotation], in order: one per accepted
    tick. *)
Fixpoint rotation_stores (t : list event) : list Z :=
  match t with
  | [] => []
  | StoreRotation v :: t' => v :: rotation_stores t'
  | _ :: t' => rotation_stores t'
  end.

Definition is_BtConnect (ev : event) : bool :=
  match ev with BtConnect _ _ => true | _ => false end.
Definition is_BtSend (ev : event) : bool :=
  match ev with BtSend _ => true | _ => false end.
Definition is_BtClose (ev : event) : bool :=
  match ev with BtClose => true | _ => false end.
Definition is_LogError (ev : event) : bool :=
  match ev with LogError _ _ => true | _ => false end.
Definition is_Grab (ev : event) : bool :=
  match ev with Grab => true | _ => false end.

Definition count (p : event -> bool) (t : list event) : nat :=
  length (filter p t).

(** The payloads handed to [sock.send], in order. *)
Fixpoint sent_payloads (t : list event) : list bytes :=
  match t with
  | [] => []
  | BtSend d :: t' => d :: sent_payloads t'
  | _ :: t' => sent_payloads t'
  end.

Definition thread_ended (st : thread_status) : bool :=
  match st with
  | Finished | Died _ => true
  | _ => false
  end.

(** The first [await] of the schedule that ends the session loop. *)
Fixpoint first_end (sched : list action) : option listen_outcome :=
  match sched with
  | [] => None
  | ListenTurn Heard :: _ => Some Heard
  | ListenTurn (ListenRaises e) :: _ => Some (ListenRaises e)
  | _ :: rest => first_end rest
  end.

Definition thread_name_eqb (a b : thread_name) : bool :=
  match a, b with
  | MainThread, MainThread | VideoThread, VideoThread | MotorThread, MotorThread => true
  | _, _ => false
  end.

(** ** Vocabulary of the properties and sample inputs *)

Unset Implicit Arguments.

Definition send_error_message (e : exception) : string :=
  match e with
  | BluetoothError => "Bluetooth error"
  | _ => "Error sending data to Seeed"
  end.

(** The calls of one [send_to_seeed_bluetooth], written out. *)
Definition bt_events (o : bt_outcome) (data : bytes) : list event :=
  BtSocket ::
  match bt_socket o with
  | Some _ => []
  | None =>
      BtConnect BLUETOOTH_ADDRESS 1 ::
      match bt_connect o with
      | Some e => [LogError (send_error_message e) (Exception e)]
      | None =>
          BtSend data ::
          match bt_send o with
          | Some e => [LogError (send_error_message e) (Exception e)]
          | None => []
          end
      end ++ [BtClose]
  end.

Definition bt_result (o : bt_outcome) : result unit :=
  match bt_socket o with
  | Some e => Raise (Exception e)
  | None =>
      match bt_close o with
      | Some e => Raise (Exception e)
      | None => Return tt
      end
  end.

(** A white screen, as [mss] grabs it: 480 x 640 BGRA pixels. *)
Definition white_screen : bytes := repeat Byte.xff (480 * 640 * 4).

(** What follows a call of [send_to_seeed_bluetooth] in a loop body: the
    [time.sleep], when the call returned. *)
Definition then_sleep (ms : Z) (r : result unit) : list event :=
  match r with
  | Return _ => [Sleep ms]
  | _ => []
  end.

(** The index the next accepted tick stores (line 175). *)
Definition next_rotation (g : globals) : Z :=
  (current_rotation g + 1) mod TOTAL_ROTATIONS.

(** [tracks c t c']: read against the trace [t], a counter that starts at [c]
    and moves only at the stores of [current_rotation], each store writing the
    successor (mod TOTAL_ROTATIONS) of the value before it, ends at [c']. *)
Inductive tracks : Z -> list event -> Z -> Prop :=
| tracks_nil c : tracks c [] c
| tracks_tick c t c' :
    tracks ((c + 1) mod TOTAL_ROTATIONS) t c' ->
    tracks c (StoreRotation ((c + 1) mod TOTAL_ROTATIONS) :: t) c'
| tracks_other c ev t c' :
    rotation_stores [ev] = [] ->
    tracks c t c' ->
    tracks c (ev :: t) c'.

(** The successive indices from [c]: the values the next [n] ticks store. *)
Definition ticks_from (c : Z) (n : nat) : list Z :=
  map (fun k => (c + Z.of_nat k) mod TOTAL_ROTATIONS) (seq 1 n).

(** [obeys R m]: whatever [m] does from a state, the state it started from,
    its trace and the state it leaves are related by [R]. *)
Definition obeys {St A} (R : St -> list event -> St -> Prop) (m : M St A) : Prop :=
  forall s s' t r, m s = (s', t, r) -> R s t s'.

Record stepwise {St} (R : St -> list event -> St -> Prop) : Prop := {
  step_refl : forall s, R s [] s;
  step_trans : forall s t1 s1 t2 s2, R s t1 s1 -> R s1 t2 s2 -> R s (t1 ++ t2) s2
}.

(** The rotation counter follows the ticks of the trace, in a thread and in
    the whole process. *)
Definition counted_g (g : globals) (t : list event) (g' : globals) : Prop :=
  tracks (current_rotation g) t (current_rotation g').

Definition counted (s : system) (t : list event) (s' : system) : Prop :=
  counted_g (sys_globals s) t (sys_globals s').

(** The index read in a state of the process. *)
Definition index_of (s : system) : Z := current_rotation (sys_globals s).

Definition in_range (v : Z) : Prop := 0 <= v < TOTAL_ROTATIONS.

(** Sample inputs: the sensor at the magnet and away from it, a helper bound
    to [get_frame_slice] that answers a one-byte slice. *)
Definition hall_at_mark : motor_poll := {| hall_high := true; poll_bt := bt_ok |}.

Definition hall_away : motor_poll := {| hall_high := false; poll_bt := bt_ok |}.

Definition one_byte_slices : namespace :=
  {| ns_get_frame_slice := Some (fun i => [Byte.x01]) |}.

(** Two calls one after the other in the module as written: the sensor is at
    the mark in the first; in the second it is away, then at the mark. *)
Definition first_call :=
  tavus_cvi_meeting INTER_NEAREST module_namespace "url"
    [MotorTurn hall_at_mark; ListenTurn Heard] no_inflight module_loaded.

Definition second_call :=
  tavus_cvi_meeting INTER_NEAREST module_namespace "url"
    [MotorTurn hall_away; MotorTurn hall_at_mark; ListenTurn Heard] no_inflight
    (fst (fst first_call)).

(** A call in which the sensor stays at the mark for three passes, with a
    helper bound to [get_frame_slice]. *)
Definition held_high_bound :=
  tavus_cvi_meeting INTER_NEAREST one_byte_slices "url"
    [MotorTurn hall_at_mark; MotorTurn hall_at_mark; MotorTurn hall_at_mark]
    no_inflight module_loaded.

(** A call of the module as written in which the mark passes twice, two low
    readings apart. *)
Definition two_marks :=
  tavus_cvi_meeting INTER_NEAREST module_namespace "url"
    [MotorTurn hall_at_mark; MotorTurn hall_away; MotorTurn hall_away;
     MotorTurn hall_at_mark]
    no_inflight module_loaded.

(** A call of the module as written that starts where [first_call] ended,
    the sensor still at the mark. *)
Definition next_call_still_high :=
  tavus_cvi_meeting INTER_NEAREST module_namespace "url"
    [MotorTurn hall_at_mark; ListenTurn Heard] no_inflight (fst (fst first_call)).

(** The state and the trace once both threads have been started. *)
Definition started (s : system) : system :=
  {| sys_globals := set_motor_running true (set_video_capture_running true (sys_globals s));
     video_thread := Alive;
     motor_thread := Alive |}.

Definition prologue_events (url : string) : list event :=
  [LogInfo "Starting Tavus CVI meeting..."; BrowserOpen url;
   StoreVideoFlag true; ThreadStart VideoThread;
   StoreMotorFlag true; ThreadStart MotorThread; GpioSetup HALL_SENSOR_PIN].

(** The [finally] block of [tavus_cvi_meeting]. *)
Definition call_teardown interp ns (fl : inflight) : M system unit :=
  (in_globals (store_video_capture_running false) ;;
   in_globals (store_motor_running false) ;;
   thread_join VideoThread video_capture_running
     (option_map (fun co => capture_and_process_video_body interp (fst co) (snd co))
                 (inflight_video fl)) ;;
   thread_join MotorThread motor_running
     (option_map (motor_sync_body ns) (inflight_motor fl)) ;;
   emit Pkill ;;
   logger_info "Call ended.")%py.

(** What the [except Exception] clause makes of the way the loop ended. *)
Definition after_except (r : result unit) : list event * result unit :=
  match r with
  | Raise e =>
      if is_Exception e
      then ([LogError "Error in Tavus CVI meeting" e], Return tt)
      else ([], Raise e)
  | _ => ([], r)
  end.

(** How the session comes back, given the [await] that ended its loop. *)
Definition session_result (l : listen_outcome) : result unit :=
  match l with
  | Heard => Return tt
  | ListenRaises e => if is_Exception e then Return tt else Raise e
  | NotHeard => Pending
  end.

(** What every step of the session loop keeps: the flags, that a started
    thread stays started, and that a capture thread that has ended stays as
    it is and grabs nothing more. *)
Record loop_step (s : system) (t : list event) (s' : system) : Prop := {
  ls_video_flag :
    video_capture_running (sys_globals s') = video_capture_running (sys_globals s);
  ls_motor_flag :
    motor_running (sys_globals s') = motor_running (sys_globals s);
  ls_video_started : video_thread s <> NotStarted -> video_thread s' <> NotStarted;
  ls_motor_started : motor_thread s <> NotStarted -> motor_thread s' <> NotStarted;
  ls_video_ended :
    thread_ended (video_thread s) = true ->
    video_thread s' = video_thread s /\ count is_Grab t = 0%nat
}.

(** How the session loop comes back, given the [await] that ended it. *)
Definition loop_result (l : option listen_outcome) : result unit :=
  match l with
  | Some Heard => Return tt
  | Some (ListenRaises e) => Raise e
  | _ => Pending
  end.

(** A loop body that comes back and leaves the flags alone. *)
Definition keeps_flags (body : M globals unit) : Prop :=
  forall g g' tr r,
    body g = (g', tr, r) ->
    r <> Pending /\
    video_capture_running g' = video_capture_running g /\
    motor_running g' = motor_running g.

Definition flag_of (t : thread_name) : globals -> bool :=
  match t with
  | VideoThread => video_capture_running
  | MotorThread => motor_running
  | MainThread => fun _ => true
  end.

(** A call that ends by cancellation while both workers are in a pass. *)
Definition cancelled_call_schedule : list action :=
  [VideoTurn (Grabbed white_screen) bt_ok; MotorTurn hall_at_mark;
   ListenTurn NotHeard; ListenTurn (ListenRaises CancelledError)].

Definition both_inflight : inflight :=
  {| inflight_video := Some (GrabRaises ScreenShotError, bt_ok);
     inflight_motor := Some hall_at_mark |}.

(** A call in which the capture backend is unavailable from the first grab
    on, observed over six turns of the capture thread. *)
Definition capture_outage_schedule : list action :=
  [VideoTurn (GrabRaises ScreenShotError) bt_ok; ListenTurn NotHeard;
   VideoTurn (GrabRaises ScreenShotError) bt_ok; ListenTurn NotHeard;
   VideoTurn (GrabRaises ScreenShotError) bt_ok; ListenTurn NotHeard;
   VideoTurn (GrabRaises ScreenShotError) bt_ok; ListenTurn NotHeard;
   VideoTurn (GrabRaises ScreenShotError) bt_ok; ListenTurn NotHeard;
   VideoTurn (GrabRaises ScreenShotError) bt_ok; MotorTurn hall_away;
   ListenTurn NotHeard].

Definition capture_outage :=
  tavus_cvi_meeting INTER_NEAREST module_namespace "url"
    capture_outage_schedule no_inflight module_loaded.

(** The Bluetooth stack during a call whose socket is created and closed
    without error. *)
Definition bt_on_open_socket (connect_raises send_raises : option exception) : bt_outcome :=
  {| bt_socket := None; bt_connect := connect_raises;
     bt_send := send_raises; bt_close := None |}.

(** Six sends in a row whose [sock.send] raises BluetoothError. *)
Definition six_failed_sends :=
  tavus_cvi_meeting INTER_NEAREST module_namespace "url"
    (repeat (VideoTurn (Grabbed white_screen)
               (bt_on_open_socket None (Some BluetoothError))) 6)
    no_inflight module_loaded.

(** Whether a call gets as far as [sock.send]. *)
Definition reaches_send (o : bt_outcome) : bool :=
  match bt_socket o, bt_connect o with
  | None, None => true
  | _, _ => false
  end.

(** * The assistant around the pipeline (lines 62-104, 212-234)

    The speech front end, the conversation request and the main loop.  Their
    code catches exception classes of the speech and HTTP libraries, so it
    runs in a monad of its own, [F]: the process state, a trace that holds
    the front end's calls beside the pipeline's, and exceptions of any
    class. *)

Module Assistant.

Definition TAVUS_API_URL : string := "https://tavusapi.com/v2/conversations".
Definition WAKE_WORD : string := "hey skye".
Definition FACETIME_TRIGGER : string := "let's facetime".

(** The exception classes the front end meets: those of the pipeline and the
    library classes its [except] clauses name. *)
Inductive any_exception : Type :=
| Base (e : base_exception)
| UnknownValueError           (* speech_recognition *)
| RequestError                (* speech_recognition *)
| RequestException            (* requests: the class and its subclasses *)
| AttributeError              (* an attribute the object does not have *)
| TypeError.                  (* an argument of the wrong type *)

Definition is_Exception_any (e : any_exception) : bool :=
  match e with
  | Base b => is_Exception b
  | _ => true
  end.

(** The values a decoded JSON response is made of ([response.json()]): a
    [float] is kept as its IEEE 754 value, a [dict] as its items, looked up
    from the front. *)
#[local] Unset Elimination Schemes.
Inductive pyvalue : Type :=
| PyNone
| PyBool (b : bool)
| PyInt (n : Z)
| PyFloat (x : spec_float)
| PyStr (s : string)
| PyList (items : list pyvalue)
| PyDict (items : list (string * pyvalue)).
#[local] Set Elimination Schemes.

Inductive front_event : Type :=
| Pipeline (ev : event)                       (* a call of the pipeline's code *)
| BrowserOpenValue (v : pyvalue)              (* webbrowser.open on a value that is no str *)
| FLogError (msg : string) (e : option any_exception)
| MicOpen                                     (* with sr.Microphone() as source *)
| MicListen (timeout phrase_time_limit : Z)   (* recognizer.listen(source, ...) *)
| MicClose                                    (* leaving the with block *)
| RecognizeGoogle                             (* recognize_google(audio).lower() *)
| Deadline (timeout_ms : Z)                   (* end_time = time.time() + timeout *)
| ClockRead                                   (* time.time() < end_time *)
| AsyncSleep (ms : Z)                         (* await asyncio.sleep *)
| HttpPost (url : string)                     (* requests.post *)
| RaiseForStatus                              (* response.raise_for_status() *)
| ResponseJson.                               (* response.json() *)

Inductive fresult (A : Type) : Type :=
| FReturn (a : A)
| FRaise (e : any_exception)
| FPending.
Arguments FReturn {A} a.
Arguments FRaise {A} e.
Arguments FPending {A}.

Definition F (A : Type) : Type := system -> system * list front_event * fresult A.

Definition fret {A} (a : A) : F A := fun s => (s, [], FReturn a).

Definition fbind {A B} (m : F A) (k : A -> F B) : F B := fun s =>
  match m s with
  | (s1, t1, FReturn a) =>
      match k a s1 with (s2, t2, r) => (s2, t1 ++ t2, r) end
  | (s1, t1, FRaise e) => (s1, t1, FRaise e)
  | (s1, t1, FPending) => (s1, t1, FPending)
  end.

Definition fraise {A} (e : any_exception) : F A := fun s => (s, [], FRaise e).

Definition fpending {A} : F A := fun s => (s, [], FPending).

Definition femit (ev : front_event) : F unit := fun s => (s, [ev], FReturn tt).

Declare Scope front_scope.
Delimit Scope front_scope with front.
Notation "x <- c1 ;; c2" := (fbind c1 (fun x => c2))
  (at level 100, c1 at next level, right associativity) : front_scope.
Notation "c1 ;; c2" := (fbind c1 (fun _ => c2))
  (at level 100, right associativity) : front_scope.
Local Open Scope front_scope.

Definition ftry_except {A} (body : F A) (handler : any_exception -> option (F A)) : F A :=
  fun s =>
    match body s with
    | (s1, t1, FRaise e) =>
        match handler e with
        | Some h => match h s1 with (s2, t2, r) => (s2, t1 ++ t2, r) end
        | None => (s1, t1, FRaise e)
        end
    | done => done
    end.

Definition ftry_finally {A} (body : F A) (fin : F unit) : F A := fun s =>
  match body s with
  | (s1, t1, FPending) => (s1, t1, FPending)
  | (s1, t1, r) =>
      match fin s1 with
      | (s2, t2, FReturn _) => (s2, t1 ++ t2, r)
      | (s2, t2, FRaise e') => (s2, t1 ++ t2, FRaise e')
      | (s2, t2, FPending) => (s2, t1 ++ t2, FPending)
      end
  end.

Definition fexternal (ev : front_event) (outcome : option any_exception) : F unit :=
  femit ev ;;
  match outcome with
  | Some e => fraise e
  | None => fret tt
  end.

Definition flogger_info (msg : string) : F unit := femit (Pipeline (LogInfo msg)).
Definition flogger_error (msg : string) (e : option any_exception) : F unit :=
  femit (FLogError msg e).

(** Code of the pipeline called from the front end. *)
Definition pipeline {A} (m : M system A) : F A := fun s =>
  match m s with
  | (s', t, Return a) => (s', map Pipeline t, FReturn a)
  | (s', t, Raise e) => (s', map Pipeline t, FRaise (Base e))
  | (s', t, Pending) => (s', map Pipeline t, FPending)
  end.

(** ** Speech recognition (lines 62-81) *)

(** What [recognize_google(audio).lower()] comes back with. *)
Inductive recognize_outcome : Type :=
| Transcribed (text : string)
| RecognizeRaises (e : any_exception).

(** What the microphone and the recognition service do during one
    [recognize_speech]. *)
Record mic_outcome : Type := {
  mic_open : option any_exception;
  mic_listen : option any_exception;
  mic_recognize : recognize_outcome
}.

Definition recognize_speech (m : mic_outcome) : F string :=
  (fexternal MicOpen (mic_open m) ;;
   ftry_finally
     (flogger_info "Listening..." ;;
      fexternal (MicListen 5 5) (mic_listen m))
     (femit MicClose)) ;;
  ftry_except
    (femit RecognizeGoogle ;;
     match mic_recognize m with
     | Transcribed text => fret text
     | RecognizeRaises e => fraise e
     end)
    (fun e =>
       match e with
       | UnknownValueError | RequestError =>
           Some (flogger_error "Speech recognition error" (Some e) ;; fret EmptyString)
       | _ => None
       end).

(** [phrase in text] on two [str]. *)
Fixpoint is_substring (phrase text : string) : bool :=
  String.prefix phrase text ||
  match text with
  | EmptyString => false
  | String _ text' => is_substring phrase text'
  end.

(** One pass of the [while] of [listen_for_phrase]: what the clock says at
    the head of the loop, what the recognition does, and whether the
    [await] raises. *)
Record listen_step : Type := {
  clock_in_time : bool;
  step_mic : mic_outcome;
  step_sleep : option any_exception
}.

Fixpoint listen_for_phrase_loop (phrase : string) (steps : list listen_step) : F bool :=
  match steps with
  | [] => fpending
  | st :: rest =>
      femit ClockRead ;;
      if clock_in_time st then
        text <- recognize_speech (step_mic st) ;;
        if is_substring phrase text then fret true
        else
          fexternal (AsyncSleep 100) (step_sleep st) ;;
          listen_for_phrase_loop phrase rest
      else fret false
  end.

Definition listen_for_phrase (phrase : string) (timeout_ms : Z)
    (steps : list listen_step) : F bool :=
  femit (Deadline timeout_ms) ;;
  listen_for_phrase_loop phrase steps.

(** ** The conversation request (lines 83-104) *)

(** [d.get(key)] on a [dict]: [None] when the key is absent. *)
Fixpoint dict_get (d : list (string * pyvalue)) (key : string) : pyvalue :=
  match d with
  | [] => PyNone
  | (k, v) :: d' => if String.eqb k key then v else dict_get d' key
  end.

(** [v.get(key)] on whatever [response.json()] decoded: only a [dict] has
    the method. *)
Definition py_get (v : pyvalue) (key : string) : F pyvalue :=
  match v with
  | PyDict d => fret (dict_get d key)
  | _ => fraise AttributeError
  end.

(** The truth value of [if v:]. *)
Definition truthy (v : pyvalue) : bool :=
  match v with
  | PyNone => false
  | PyBool b => b
  | PyInt n => negb (n =? 0)
  | PyFloat (S754_zero _) => false
  | PyFloat _ => true
  | PyStr s => negb (String.eqb s EmptyString)
  | PyList items => negb (Nat.eqb (length items) 0)
  | PyDict items => negb (Nat.eqb (length items) 0)
  end.

Inductive json_outcome : Type :=
| JsonValue (v : pyvalue)
| JsonRaises (e : any_exception).

(** What the HTTP client does during one [create_tavus_conversation]. *)
Record post_outcome : Type := {
  post_raises : option any_exception;     (* requests.post *)
  status_raises : option any_exception;   (* raise_for_status: HTTPError on 4xx, 5xx *)
  json_result : json_outcome
}.

Definition create_tavus_conversation (p : post_outcome) : F pyvalue :=
  ftry_except
    (fexternal (HttpPost TAVUS_API_URL) (post_raises p) ;;
     fexternal RaiseForStatus (status_raises p) ;;
     femit ResponseJson ;;
     match json_result p with
     | JsonValue v => py_get v "conversation_url"
     | JsonRaises e => fraise e
     end)
    (fun e =>
       match e with
       | RequestException =>
           Some (flogger_error "Failed to create Tavus conversation" (Some e) ;;
                 fret PyNone)
       | _ => None
       end).

(** ** The main loop (lines 212-234) *)

(** What one pass of the [while True] of [main] meets.  [open_raises] is
    what [webbrowser.open] does with a value that is no [str]. *)
Record round : Type := {
  wake_steps : list listen_step;
  trigger_steps : list listen_step;
  post : post_outcome;
  open_raises : option any_exception;
  call_sched : list action;
  call_inflight : inflight
}.

Section Main.

Variable interpolate : ndarray -> nat * nat -> nat -> nat -> nat -> Byte.byte.
Variable ns : namespace.

(** Lines 114-140 of [tavus_cvi_meeting]: what follows [webbrowser.open]. *)
Definition session_after_open (sched : list action) (fl : inflight) : M system unit :=
  (in_globals (store_video_capture_running true) ;;
   thread_start VideoThread ;;
   in_globals (store_motor_running true) ;;
   thread_start MotorThread ;;
   try_finally
     (try_except
        (call_loop interpolate ns sched)
        (fun e =>
           if is_Exception e
           then Some (logger_error "Error in Tavus CVI meeting" e)
           else None))
     (call_teardown interpolate ns fl))%py.

(** [await tavus_cvi_meeting(conversation_url)] on the value [main] holds.
    Python checks no type.  On a [str] the call is the session of the
    pipeline.  On any other value the same lines run, and
    [webbrowser.open] (line 112, before the [try]) receives the value as it
    is; what the browser module makes of it is its own affair (a TypeError
    from the command line it builds, nothing when no browser is registered)
    and is the round's [open_raises]. *)
Definition call_tavus_cvi_meeting (conversation_url : pyvalue) (r : round) : F unit :=
  match conversation_url with
  | PyStr url =>
      pipeline (tavus_cvi_meeting interpolate ns url (call_sched r) (call_inflight r))
  | v =>
      flogger_info "Starting Tavus CVI meeting..." ;;
      fexternal (BrowserOpenValue v) (open_raises r) ;;
      pipeline (session_after_open (call_sched r) (call_inflight r))
  end.

(** The body of [if conversation_url: ... else: ...]. *)
Definition start_call (conversation_url : pyvalue) (r : round) : F unit :=
  if truthy conversation_url
  then call_tavus_cvi_meeting conversation_url r
  else flogger_error "Failed to create Tavus conversation. Please try again." None.

Definition main_body (r : round) : F unit :=
  heard <- listen_for_phrase WAKE_WORD 10000 (wake_steps r) ;;
  if heard then
    flogger_info "Wake word detected. Awaiting further instructions..." ;;
    triggered <- listen_for_phrase FACETIME_TRIGGER 10000 (trigger_steps r) ;;
    if triggered then
      conversation_url <- create_tavus_conversation (post r) ;;
      start_call conversation_url r
    else
      flogger_info "'let's facetime' not detected. Returning to wake word detection."
  else fret tt.

Fixpoint main_loop (rounds : list round) : F unit :=
  match rounds with
  | [] => fpending
  | r :: rest => main_body r ;; main_loop rest
  end.

Definition main (rounds : list round) : F unit :=
  ftry_finally
    (ftry_except
       (flogger_info "POV Display system initialized. Say 'Hey Skye' to start." ;;
        main_loop rounds)
       (fun e =>
          match e with
          | Base KeyboardInterrupt => Some (flogger_info "Program interrupted by user.")
          | _ =>
              if is_Exception_any e
              then Some (flogger_error "An unexpected error occurred" (Some e))
              else None
          end))
    (pipeline (in_globals cleanup)).

End Main.

(** ** Vocabulary of the front end's properties *)

(** The calls and the result of one [recognize_speech], written out. *)
Definition mic_events (m : mic_outcome) : list front_event :=
  MicOpen ::
  match mic_open m with
  | Some _ => []
  | None =>
      [Pipeline (LogInfo "Listening..."); MicListen 5 5; MicClose] ++
      match mic_listen m with
      | Some _ => []
      | None =>
          RecognizeGoogle ::
          match mic_recognize m with
          | RecognizeRaises UnknownValueError =>
              [FLogError "Speech recognition error" (Some UnknownValueError)]
          | RecognizeRaises RequestError =>
              [FLogError "Speech recognition error" (Some RequestError)]
          | _ => []
          end
      end
  end.

Definition mic_result (m : mic_outcome) : fresult string :=
  match mic_open m with
  | Some e => FRaise e
  | None =>
      match mic_listen m with
      | Some e => FRaise e
      | None =>
          match mic_recognize m with
          | Transcribed text => FReturn text
          | RecognizeRaises UnknownValueError => FReturn EmptyString
          | RecognizeRaises RequestError => FReturn EmptyString
          | RecognizeRaises e => FRaise e
          end
      end
  end.

(** The same microphone outcome with a recognition that fails in one of the
    two caught classes replaced by an empty transcript. *)
Definition as_silence (m : mic_outcome) : mic_outcome :=
  {| mic_open := mic_open m;
     mic_listen := mic_listen m;
     mic_recognize :=
       match mic_recognize m with
       | RecognizeRaises UnknownValueError => Transcribed EmptyString
       | RecognizeRaises RequestError => Transcribed EmptyString
       | other => other
       end |}.

Definition step_as_silence (st : listen_step) : listen_step :=
  {| clock_in_time := clock_in_time st;
     step_mic := as_silence (step_mic st);
     step_sleep := step_sleep st |}.

Definition is_speech_error_log (ev : front_event) : bool :=
  match ev with
  | FLogError "Speech recognition error" _ => true
  | _ => false
  end.

Definition is_FLogError (ev : front_event) : bool :=
  match ev with FLogError _ _ => true | _ => false end.

Definition fcount (p : front_event -> bool) (t : list front_event) : nat :=
  length (filter p t).


(** The values [webbrowser.open] was called on, in order. *)
Fixpoint opened_values (t : list front_event) : list pyvalue :=
  match t with
  | [] => []
  | Pipeline (BrowserOpen url) :: t' => PyStr url :: opened_values t'
  | BrowserOpenValue v :: t' => v :: opened_values t'
  | _ :: t' => opened_values t'
  end.

(** Every browser window was opened on a value that [if] takes for true. *)
Definition opens_on_truthy (t : list front_event) : Prop :=
  Forall (fun v => truthy v = true) (opened_values t).

(** The first call of [create_tavus_conversation] that raises, if any; the
    last of them is [.get], which a decoded value that is no [dict] does
    not have. *)
Definition first_failure (p : post_outcome) : option any_exception :=
  match post_raises p with
  | Some e => Some e
  | None =>
      match status_raises p with
      | Some e => Some e
      | None =>
          match json_result p with
          | JsonRaises e => Some e
          | JsonValue (PyDict _) => None
          | JsonValue _ => Some AttributeError
          end
      end
  end.

(** The value of the response under the key, when it decodes. *)
Definition response_value (p : post_outcome) : pyvalue :=
  match json_result p with
  | JsonValue (PyDict d) => dict_get d "conversation_url"
  | _ => PyNone
  end.

Definition no_worker_alive (s : system) : Prop :=
  video_thread s <> Alive /\ motor_thread s <> Alive.

(** The trace of [cleanup] and the state it leaves. *)
Definition cleanup_events : list event :=
  [StoreVideoFlag false; StoreMotorFlag false; CameraStop; GpioCleanup;
   LogInfo "Cleanup complete. Exiting."].

Definition cleaned (s : system) : system :=
  with_globals (set_motor_running false (set_video_capture_running false (sys_globals s))) s.

(** What the [except] clauses of [main] make of an exception. *)
Definition main_exit_log (e : any_exception) : list front_event :=
  match e with
  | Base KeyboardInterrupt => [Pipeline (LogInfo "Program interrupted by user.")]
  | _ =>
      if is_Exception_any e
      then [FLogError "An unexpected error occurred" (Some e)]
      else []
  end.

Definition main_exit_result (e : any_exception) : fresult unit :=
  match e with
  | Base KeyboardInterrupt => FReturn tt
  | _ => if is_Exception_any e then FReturn tt else FRaise e
  end.

(** [fholds P m]: the trace of [m] has property [P], whatever the state. *)
Definition fholds (P : list front_event -> Prop) {A} (m : F A) : Prop :=
  forall s s' t r, m s = (s', t, r) -> P t.

(** [fkeeps I m]: when [m] comes back from a state where [I] holds, [I]
    holds in the state it leaves. *)
Definition fkeeps (I : system -> Prop) {A} (m : F A) : Prop :=
  forall s s' t r, m s = (s', t, r) -> r <> FPending -> I s -> I s'.

(** The front end's own events other than those of the microphone. *)
Definition front_plain (ev : front_event) : bool :=
  match ev with
  | Pipeline (LogInfo _) | FLogError _ _ | Deadline _ | ClockRead | AsyncSleep _
  | HttpPost _ | RaiseForStatus | ResponseJson => true
  | _ => false
  end.

(** No browser window is opened. *)
Definition no_browser (t : list event) : Prop :=
  Forall (fun ev => match ev with BrowserOpen _ => False | _ => True end) t.

(** Sample inputs: a microphone on which nobody speaks for five seconds,
    one on which a sentence is transcribed, and a round of the main loop that
    meets silence while waiting for the wake word. *)
Definition silent_mic : mic_outcome :=
  {| mic_open := None;
     mic_listen := Some (Base (Exception WaitTimeoutError));
     mic_recognize := Transcribed EmptyString |}.

Definition spoken (text : string) : mic_outcome :=
  {| mic_open := None; mic_listen := None; mic_recognize := Transcribed text |}.

Definition in_time (m : mic_outcome) : listen_step :=
  {| clock_in_time := true; step_mic := m; step_sleep := None |}.

Definition no_answer : post_outcome :=
  {| post_raises := Some RequestException; status_raises := None;
     json_result := JsonValue (PyDict []) |}.

Definition answer : post_outcome :=
  {| post_raises := None; status_raises := None;
     json_result :=
       JsonValue (PyDict [("conversation_id"%string, PyStr "c1");
                          ("conversation_url"%string, PyStr "https://tavus.daily.co/c1")]) |}.

(** A response whose conversation_url is the number 5, and a round in which
    the browser module refuses it. *)
Definition number_answer : post_outcome :=
  {| post_raises := None; status_raises := None;
     json_result := JsonValue (PyDict [("conversation_url"%string, PyInt 5)]) |}.


(** A round in which a call is made: the sensor passes the mark once, then
    the exit phrase is heard. *)
Definition call_round : round :=
  {| wake_steps := [in_time (spoken "hey skye")];
     trigger_steps := [in_time (spoken "let's facetime")];
     post := answer;
     open_raises := None;
     call_sched := [MotorTurn hall_at_mark; ListenTurn Heard];
     call_inflight := no_inflight |}.

Definition number_round : round :=
  {| wake_steps := [in_time (spoken "hey skye")];
     trigger_steps := [in_time (spoken "let's facetime")];
     post := number_answer;
     open_raises := Some TypeError;
     call_sched := [];
     call_inflight := no_inflight |}.

Definition silent_round : round :=
  {| wake_steps := [in_time silent_mic]; trigger_steps := []; post := no_answer;
     open_raises := None; call_sched := []; call_inflight := no_inflight |}.

End Assistant.

(** ** Vocabulary of the further properties *)

(** The events the session itself emits once both threads are started, the
    stores of the flags apart. *)
Definition session_event (ev : event) : bool :=
  match ev with
  | LogInfo _ | LogError _ _ | ThreadJoin _ | Pkill => true
  | _ => false
  end.

(** A relation that only looks at the trace. *)
Definition on_trace (P : list event -> Prop) (s : system) (t : list event) (s' : system)
  : Prop := P t.

Definition is_high_read (ev : event) : bool :=
  match ev with
  | GpioInput _ true => true
  | _ => false
  end.

(** Every socket that was connected was closed. *)
Definition sockets_closed (t : list event) : Prop :=
  count is_BtConnect t = count is_BtClose t.

(** Every payload handed to [sock.send] is a whole 64 x 64 BGRA frame. *)
Definition whole_frames (t : list event) : Prop :=
  Forall (fun d : bytes => length d = (64 * 64 * 4)%nat) (sent_payloads t).

(** As many ticks as HIGH readings of the pin. *)
Definition tick_per_high_read (t : list event) : Prop :=
  length (rotation_stores t) = count is_high_read t.

(** At most one tick, after which the sensor thread has ended; none once it
    has ended. *)
Definition ticks_once (s : system) (t : list event) (s' : system) : Prop :=
  (thread_ended (motor_thread s) = true ->
   rotation_stores t = [] /\ thread_ended (motor_thread s') = true) /\
  (length (rotation_stores t) <= 1)%nat /\
  (rotation_stores t <> [] -> thread_ended (motor_thread s') = true).

(** * Properties *)

(** ** The Bluetooth sender *)

Lemma send_to_seeed_bluetooth_eq (o : bt_outcome) (data : bytes) (g : globals) :
  send_to_seeed_bluetooth o data g = (g, bt_events o data, bt_result o).
Proof.
  destruct o as [[es|] [ec|] [ed|] [ecl|]];
    try destruct ec; try destruct ed; reflexivity.
Qed.

(** The constructor stands before the [try]: an error it raises leaves the
    function, with nothing to close. *)
Lemma send_to_seeed_bluetooth_socket_raises (e : exception) c sd cl (data : bytes) (g : globals) :
  send_to_seeed_bluetooth
    {| bt_socket := Some e; bt_connect := c; bt_send := sd; bt_close := cl |} data g
  = (g, [BtSocket], Raise (Exception e)).
Proof. reflexivity. Qed.

(** C9, the claim as stated fails: an error of the constructor (line 188,
    before the [try]) leaves the function with nothing logged and nothing
    closed, and an error of [close()] (in the [finally]) leaves it too, here
    after a send that went through. *)
Lemma C9_counterexample :
  send_to_seeed_bluetooth
    {| bt_socket := Some OSError; bt_connect := None;
       bt_send := None; bt_close := None |} [Byte.x01] module_globals
  = (module_globals, [BtSocket], Raise (Exception OSError)) /\
  send_to_seeed_bluetooth
    {| bt_socket := None; bt_connect := None;
       bt_send := None; bt_close := Some BluetoothError |} [Byte.x01] module_globals
  = (module_globals,
     [BtSocket; BtConnect BLUETOOTH_ADDRESS 1; BtSend [Byte.x01]; BtClose],
     Raise (Exception BluetoothError)).
Proof. split; reflexivity. Qed.

(** C9, amended: whatever each of the four socket calls does, an exception
    of the constructor leaves the function at once; once the socket exists,
    what [connect] or [send] raises is caught and logged once, [close()] is
    called, once and last, and the function returns normally unless
    [close()] itself raises, whose exception then leaves the function.  The
    globals are left alone. *)
Theorem C9_send_catches_connect_and_send_errors :
  forall (o : bt_outcome) (data : bytes) (g : globals),
    send_to_seeed_bluetooth o data g
    = (g,
       BtSocket ::
       match bt_socket o with
       | Some _ => []
       | None =>
           [BtConnect BLUETOOTH_ADDRESS 1]
             ++ match bt_connect o with
                | Some e => [LogError (send_error_message e) (Exception e)]
                | None =>
                    BtSend data ::
                    match bt_send o with
                    | Some e => [LogError (send_error_message e) (Exception e)]
                    | None => []
                    end
                end
             ++ [BtClose]
       end,
       match bt_socket o, bt_close o with
       | Some e, _ => Raise (Exception e)
       | None, Some e => Raise (Exception e)
       | None, None => Return tt
       end).
Proof.
  intros o data g. rewrite send_to_seeed_bluetooth_eq.
  destruct o as [[es|] c sd [ecl|]]; reflexivity.
Qed.

(** ** The frame encoder *)

Lemma flat_map_length_const {A B} (f : A -> list B) (n : nat) (l : list A) :
  (forall a, length (f a) = n) -> length (flat_map f l) = (length l * n)%nat.
Proof.
  intros Hf. induction l as [|a l IH]; simpl.
  - reflexivity.
  - rewrite length_app, Hf, IH. reflexivity.
Qed.

Lemma cv2_resize_data_length interp (src : ndarray) (dw dh : nat) (dst : ndarray) :
  cv2_resize interp src (dw, dh) = Return dst ->
  length (nd_data dst) = (dh * (dw * nd_channels src))%nat.
Proof.
  unfold cv2_resize.
  destruct (negb (resizable src)); [discriminate|].
  intros H. injection H as <-. cbn [nd_data].
  rewrite (flat_map_length_const _ (dw * nd_channels src)%nat).
  - now rewrite length_seq.
  - intros r. rewrite (flat_map_length_const _ (nd_channels src)).
    + now rewrite length_seq.
    + intros c. now rewrite length_map, length_seq.
Qed.

Lemma process_frame_for_pov_length interp (frame : ndarray) :
  resizable frame = true ->
  exists payload,
    process_frame_for_pov interp frame = Return payload /\
    length payload = (64 * (64 * nd_channels frame))%nat.
Proof.
  intros Hf. unfold process_frame_for_pov.
  destruct (cv2_resize interp frame (64, 64)%nat) as [dst| e |] eqn:E.
  - exists (tobytes dst). split; [reflexivity|].
    apply (cv2_resize_data_length _ _ _ _ _ E).
  - exfalso. unfold cv2_resize in E. rewrite Hf in E. discriminate.
  - exfalso. unfold cv2_resize in E. rewrite Hf in E. discriminate.
Qed.

(** An array [cv2.resize] refuses makes the encoder raise [cv2.error]: a
    frame without rows, columns or channels, or with more than CV_CN_MAX
    channels. *)
Lemma process_frame_for_pov_refuses interp (frame : ndarray) :
  resizable frame = false ->
  process_frame_for_pov interp frame = Raise (Exception cv2_error).
Proof.
  intros Hf. unfold process_frame_for_pov, cv2_resize. rewrite Hf. reflexivity.
Qed.

Lemma screenshot_array_resizable (pixels : bytes) :
  resizable (screenshot_array pixels) = true.
Proof. reflexivity. Qed.

(** C3, the claim as stated fails: the encoder's result for a captured frame
    is one byte string of 64 * 64 * 4 bytes; its length is not
    TOTAL_ROTATIONS, and it holds no slices. *)
Lemma C3_counterexample :
  payload_length (process_frame_for_pov INTER_NEAREST (screenshot_array white_screen))
    = Some (64 * 64 * 4)%nat
  /\ (Z.of_nat (64 * 64 * 4) =? TOTAL_ROTATIONS) = false.
Proof.
  split; [|reflexivity].
  destruct (process_frame_for_pov_length INTER_NEAREST (screenshot_array white_screen))
    as [payload [E L]]; [apply screenshot_array_resizable |].
  rewrite E. cbn [payload_length]. rewrite L. reflexivity.
Qed.

(** C3, amended: for every frame that [cv2.resize] accepts (at least one
    row, one column and one channel, at most CV_CN_MAX channels) the encoder
    returns a single byte string whose length is 64 * 64 * (the frame's
    channels), whatever the frame's size and content: the same length at
    every call on frames of the same channel count. *)
Theorem C3_encoder_single_fixed_length_payload :
  forall interp (frame : ndarray),
    nd_rows frame <> 0%nat -> nd_cols frame <> 0%nat ->
    (1 <= nd_channels frame <= CV_CN_MAX)%nat ->
    exists payload,
      process_frame_for_pov interp frame = Return payload /\
      length payload = (64 * 64 * nd_channels frame)%nat.
Proof.
  intros interp frame Hr Hc [Hk1 Hk2].
  destruct (process_frame_for_pov_length interp frame) as [payload [E L]].
  - unfold resizable.
    apply Nat.eqb_neq in Hr, Hc. rewrite Hr, Hc.
    replace (nd_channels frame =? 0)%nat with false
      by (symmetry; apply Nat.eqb_neq; lia).
    apply Nat.leb_le in Hk2. rewrite Hk2. reflexivity.
  - exists payload. split; [exact E|]. rewrite L. lia.
Qed.

Lemma C3_encoder_witness :
  nd_rows (screenshot_array white_screen) <> 0%nat /\
  nd_cols (screenshot_array white_screen) <> 0%nat /\
  (1 <= nd_channels (screenshot_array white_screen) <= CV_CN_MAX)%nat /\
  exists payload,
    process_frame_for_pov INTER_NEAREST (screenshot_array white_screen) = Return payload /\
    length payload = (64 * 64 * nd_channels (screenshot_array white_screen))%nat.
Proof.
  assert (Hk : (1 <= nd_channels (screenshot_array white_screen) <= CV_CN_MAX)%nat)
    by (cbn [nd_channels screenshot_array]; unfold CV_CN_MAX; lia).
  split; [discriminate|]. split; [discriminate|]. split; [exact Hk|].
  apply (C3_encoder_single_fixed_length_payload INTER_NEAREST (screenshot_array white_screen));
    [discriminate | discriminate | exact Hk].
Defined.

(** ** The thread bodies, written out *)

Arguments bt_events : simpl never.
Arguments bt_result : simpl never.

Lemma triple_eq {A B C} (a a' : A) (b b' : B) (c c' : C) :
  (a, b, c) = (a', b', c') -> a' = a /\ b' = b /\ c' = c.
Proof. intros H. injection H as <- <- <-. auto. Qed.

(** Splits a hypothesis [m s = (s', t, r)] whose left side has been computed,
    without touching the terms. *)
Ltac triple H := apply triple_eq in H; destruct H as (-> & -> & ->).

Ltac run_monad :=
  cbv [bind emit ret raise pending read_state write_state time_sleep external
       logger_info logger_error lift in_globals
       store_video_capture_running store_motor_running].

Lemma rotation_stores_app (t1 t2 : list event) :
  rotation_stores (t1 ++ t2) = rotation_stores t1 ++ rotation_stores t2.
Proof.
  induction t1 as [|ev t1 IH]; simpl; [reflexivity|].
  destruct ev; simpl; rewrite ?IH; reflexivity.
Qed.

Lemma count_app (p : event -> bool) (t1 t2 : list event) :
  count p (t1 ++ t2) = (count p t1 + count p t2)%nat.
Proof. unfold count. now rewrite filter_app, length_app. Qed.

Lemma bt_events_no_store (o : bt_outcome) (data : bytes) :
  rotation_stores (bt_events o data) = [].
Proof. destruct o as [[?|] [?|] [?|] [?|]]; reflexivity. Qed.

Lemma bt_events_no_grab (o : bt_outcome) (data : bytes) :
  count is_Grab (bt_events o data) = 0%nat.
Proof. destruct o as [[?|] [?|] [?|] [?|]]; reflexivity. Qed.

Lemma bt_result_not_pending (o : bt_outcome) : bt_result o <> Pending.
Proof. destruct o as [[?|] ? ? [?|]]; discriminate. Qed.

Lemma motor_sync_body_low ns (o : bt_outcome) (g : globals) :
  motor_sync_body ns {| hall_high := false; poll_bt := o |} g
  = (g, [GpioInput HALL_SENSOR_PIN false; Sleep 1], Return tt).
Proof. reflexivity. Qed.

Lemma motor_sync_body_high_unbound ns (o : bt_outcome) (g : globals) :
  ns_get_frame_slice ns = None ->
  motor_sync_body ns {| hall_high := true; poll_bt := o |} g
  = (set_current_rotation (next_rotation g) g,
     [GpioInput HALL_SENSOR_PIN true; StoreRotation (next_rotation g)],
     Raise (Exception (NameError "get_frame_slice"))).
Proof.
  intros E. unfold motor_sync_body, send_next_frame_slice, get_frame_slice.
  rewrite E. reflexivity.
Qed.

Lemma motor_sync_body_high_bound ns f (o : bt_outcome) (g : globals) :
  ns_get_frame_slice ns = Some f ->
  motor_sync_body ns {| hall_high := true; poll_bt := o |} g
  = (set_current_rotation (next_rotation g) g,
     [GpioInput HALL_SENSOR_PIN true; StoreRotation (next_rotation g)]
       ++ bt_events o (f (next_rotation g)) ++ then_sleep 1 (bt_result o),
     bt_result o).
Proof.
  intros E. unfold motor_sync_body, send_next_frame_slice, get_frame_slice.
  rewrite E. run_monad. cbn [hall_high poll_bt current_rotation set_current_rotation].
  rewrite send_to_seeed_bluetooth_eq. fold (next_rotation g).
  destruct (bt_result o) as [[]| |]; cbn [app then_sleep]; rewrite ?app_nil_r; reflexivity.
Qed.

(** What one pass of the sensor loop does to the globals and to the trace. *)
Lemma motor_sync_body_effect ns (p : motor_poll) (g g' : globals) t r :
  motor_sync_body ns p g = (g', t, r) ->
  g' = (if hall_high p then set_current_rotation (next_rotation g) g else g) /\
  rotation_stores t = (if hall_high p then [next_rotation g] else []) /\
  count is_Grab t = 0%nat /\
  r <> Pending.
Proof.
  destruct p as [[|] o]; cbn [hall_high].
  - destruct (ns_get_frame_slice ns) as [f|] eqn:E.
    + rewrite (motor_sync_body_high_bound ns f o g E). intros H. triple H.
      repeat split.
      * cbn [app rotation_stores]. rewrite rotation_stores_app, bt_events_no_store.
        destruct (bt_result o) as [[]| |]; reflexivity.
      * change (count is_Grab (bt_events o (f (next_rotation g))
                               ++ then_sleep 1 (bt_result o)) = 0%nat).
        rewrite count_app, bt_events_no_grab.
        destruct (bt_result o) as [[]| |]; reflexivity.
      * apply bt_result_not_pending.
    + rewrite (motor_sync_body_high_unbound ns o g E). intros H. triple H.
      repeat split. discriminate.
  - rewrite motor_sync_body_low. intros H. triple H.
    repeat split. discriminate.
Qed.

Lemma capture_and_process_video_body_raises interp (e : exception) (o : bt_outcome) (g : globals) :
  capture_and_process_video_body interp (GrabRaises e) o g
  = (g, [Grab], Raise (Exception e)).
Proof. reflexivity. Qed.

Lemma capture_and_process_video_body_grabbed interp (pixels : bytes) (o : bt_outcome) (g : globals) :
  exists payload,
    process_frame_for_pov interp (screenshot_array pixels) = Return payload /\
    capture_and_process_video_body interp (Grabbed pixels) o g
    = (g, Grab :: bt_events o payload ++ then_sleep 10 (bt_result o), bt_result o).
Proof.
  destruct (process_frame_for_pov_length interp (screenshot_array pixels)
              (screenshot_array_resizable pixels))
    as [payload [E _]].
  exists payload. split; [exact E|].
  unfold capture_and_process_video_body, capture_browser_window.
  run_monad. rewrite E. rewrite send_to_seeed_bluetooth_eq.
  destruct (bt_result o) as [[]| |]; cbn [app then_sleep]; rewrite ?app_nil_r; reflexivity.
Qed.

Lemma capture_and_process_video_body_effect interp c (o : bt_outcome) (g g' : globals) t r :
  capture_and_process_video_body interp c o g = (g', t, r) ->
  g' = g /\ rotation_stores t = [] /\ count is_Grab t = 1%nat /\ r <> Pending.
Proof.
  destruct c as [pixels|e].
  - destruct (capture_and_process_video_body_grabbed interp pixels o g) as [payload [_ E]].
    rewrite E. intros H. triple H. repeat split.
    + cbn [rotation_stores]. rewrite rotation_stores_app, bt_events_no_store.
      destruct (bt_result o) as [[]| |]; reflexivity.
    + change (S (count is_Grab (bt_events o payload ++ then_sleep 10 (bt_result o))) = 1%nat).
      rewrite count_app, bt_events_no_grab.
      destruct (bt_result o) as [[]| |]; reflexivity.
    + apply bt_result_not_pending.
  - rewrite capture_and_process_video_body_raises. intros H. triple H.
    repeat split. discriminate.
Qed.

(** ** Counting ticks *)

#[local] Hint Constructors tracks : core.

Lemma tracks_app c t1 c1 t2 c2 :
  tracks c t1 c1 -> tracks c1 t2 c2 -> tracks c (t1 ++ t2) c2.
Proof. induction 1; simpl; auto. Qed.

Lemma tracks_quiet c t : rotation_stores t = [] -> tracks c t c.
Proof.
  induction t as [|ev t IH]; intros H; [constructor|].
  destruct ev; try discriminate; apply tracks_other; auto.
Qed.

Lemma ticks_from_S c n :
  ticks_from c (S n)
  = (c + 1) mod TOTAL_ROTATIONS :: ticks_from ((c + 1) mod TOTAL_ROTATIONS) n.
Proof.
  unfold ticks_from. cbn [seq map]. f_equal.
  rewrite <- seq_shift, map_map. apply map_ext. intros k.
  rewrite Zplus_mod_idemp_l. f_equal. lia.
Qed.

Lemma last_cons {A} (x d : A) (l : list A) : last (x :: l) d = last l x.
Proof.
  revert x d. induction l as [|y l IH]; intros x d; [reflexivity|].
  change (last (y :: l) d = last (y :: l) x). now rewrite !IH.
Qed.

Lemma tracks_stores c t c' :
  tracks c t c' ->
  rotation_stores t = ticks_from c (length (rotation_stores t)) /\
  c' = last (rotation_stores t) c.
Proof.
  induction 1 as [c | c t c' _ [IHs IHl] | c ev t c' Hev _ [IHs IHl]].
  - split; reflexivity.
  - cbn [rotation_stores length]. rewrite ticks_from_S. split.
    + f_equal. exact IHs.
    + rewrite last_cons. exact IHl.
  - assert (E : rotation_stores (ev :: t) = rotation_stores t)
      by (destruct ev; try discriminate; reflexivity).
    rewrite E. split; assumption.
Qed.

Lemma last_ticks_from c n :
  last (ticks_from c n) c = if (n =? 0)%nat then c else (c + Z.of_nat n) mod TOTAL_ROTATIONS.
Proof.
  revert c. induction n as [|n IH]; intros c; [reflexivity|].
  rewrite ticks_from_S, last_cons, IH. cbn [Nat.eqb].
  destruct n as [|n]; cbn [Nat.eqb].
  - f_equal.
  - rewrite Zplus_mod_idemp_l. f_equal. lia.
Qed.

(** After [n] ticks from an index in range the index is (c + n) mod N; on the
    way it stays in range. *)
Lemma tracks_index c t c' :
  0 <= c < TOTAL_ROTATIONS ->
  tracks c t c' ->
  c' = (c + Z.of_nat (length (rotation_stores t))) mod TOTAL_ROTATIONS /\
  0 <= c' < TOTAL_ROTATIONS /\
  Forall (fun v => 0 <= v < TOTAL_ROTATIONS) (rotation_stores t).
Proof.
  intros Hc H. destruct (tracks_stores _ _ _ H) as [Hs Hl].
  assert (Hall : Forall (fun v => 0 <= v < TOTAL_ROTATIONS) (rotation_stores t)).
  { rewrite Hs. unfold ticks_from. apply Forall_forall. intros v Hv.
    apply in_map_iff in Hv. destruct Hv as [k [<- _]].
    apply Z.mod_pos_bound. reflexivity. }
  assert (E : c' = (c + Z.of_nat (length (rotation_stores t))) mod TOTAL_ROTATIONS).
  { rewrite Hl. rewrite Hs at 1. rewrite last_ticks_from.
    destruct (length (rotation_stores t)) as [|n]; cbn [Nat.eqb]; [|reflexivity].
    rewrite Z.add_0_r, Z.mod_small; auto. }
  split; [exact E|]. split; [|exact Hall].
  rewrite E. apply Z.mod_pos_bound. reflexivity.
Qed.

(** ** Relations that every step of a computation keeps *)

Section Obeys.

Context {St : Type} (R : St -> list event -> St -> Prop).
Hypothesis HR : stepwise R.

Lemma obeys_ret {A} (a : A) : obeys R (ret a).
Proof. intros s s' t r H. triple H. apply (step_refl R HR). Qed.

Lemma obeys_raise {A} e : obeys R (@raise St A e).
Proof. intros s s' t r H. triple H. apply (step_refl R HR). Qed.

Lemma obeys_pending {A} : obeys R (@pending St A).
Proof. intros s s' t r H. triple H. apply (step_refl R HR). Qed.

Lemma obeys_read_state : obeys R (@read_state St).
Proof. intros s s' t r H. triple H. apply (step_refl R HR). Qed.

Lemma obeys_bind {A B} (m : M St A) (k : A -> M St B) :
  obeys R m -> (forall a, obeys R (k a)) -> obeys R (bind m k).
Proof.
  intros Hm Hk s s' t r. unfold bind.
  destruct (m s) as [[s1 t1] [a|e|]] eqn:Em; intros H.
  - destruct (k a s1) as [[s2 t2] r2] eqn:Ek. triple H.
    eapply (step_trans R HR); [eapply Hm | eapply Hk]; eassumption.
  - triple H. eapply Hm; eassumption.
  - triple H. eapply Hm; eassumption.
Qed.

Lemma obeys_try_except {A} (body : M St A) handler :
  obeys R body -> (forall e h, handler e = Some h -> obeys R h) ->
  obeys R (try_except body handler).
Proof.
  intros Hb Hh s s' t r. unfold try_except.
  destruct (body s) as [[s1 t1] [a|e|]] eqn:Eb; intros H.
  - triple H. eapply Hb; eassumption.
  - destruct (handler e) as [h|] eqn:Eh.
    + destruct (h s1) as [[s2 t2] r2] eqn:E2. triple H.
      eapply (step_trans R HR); [eapply Hb | eapply Hh]; eassumption.
    + triple H. eapply Hb; eassumption.
  - triple H. eapply Hb; eassumption.
Qed.

Lemma obeys_try_finally {A} (body : M St A) fin :
  obeys R body -> obeys R fin -> obeys R (try_finally body fin).
Proof.
  intros Hb Hf s s' t r. unfold try_finally.
  destruct (body s) as [[s1 t1] rb] eqn:Eb.
  destruct (fin s1) as [[s2 t2] [[]|e|]] eqn:Ef;
    destruct rb as [a|e'|]; intros H; triple H;
    first [ eapply (step_trans R HR); [eapply Hb | eapply Hf]; eassumption
          | eapply Hb; eassumption ].
Qed.

End Obeys.

Lemma counted_stepwise : stepwise counted.
Proof.
  split.
  - intros s. constructor.
  - intros s t1 s1 t2 s2. apply tracks_app.
Qed.

Lemma tracks_single c t :
  rotation_stores t = [(c + 1) mod TOTAL_ROTATIONS] ->
  tracks c t ((c + 1) mod TOTAL_ROTATIONS).
Proof.
  induction t as [|ev t IH]; intros H; [discriminate|].
  destruct ev; try (apply tracks_other; [reflexivity | apply IH; exact H]).
  cbn [rotation_stores] in H. injection H as -> Ht.
  apply tracks_tick. apply tracks_quiet. exact Ht.
Qed.

Lemma motor_sync_body_counted ns p : obeys counted_g (motor_sync_body ns p).
Proof.
  intros g g' t r H. apply motor_sync_body_effect in H.
  destruct H as (-> & Hs & _ & _). unfold counted_g.
  destruct (hall_high p).
  - apply tracks_single. exact Hs.
  - apply tracks_quiet. exact Hs.
Qed.

Lemma capture_and_process_video_body_counted interp c o :
  obeys counted_g (capture_and_process_video_body interp c o).
Proof.
  intros g g' t r H. apply capture_and_process_video_body_effect in H.
  destruct H as (-> & Hs & _ & _). apply tracks_quiet. exact Hs.
Qed.

Lemma emit_counted ev : rotation_stores [ev] = [] -> obeys counted (emit ev).
Proof. intros Hev s s' t r H. triple H. apply tracks_quiet. exact Hev. Qed.

Lemma set_status_counted t st : obeys counted (write_state (set_status t st)).
Proof. intros s s' tr r H. triple H. destruct t; constructor. Qed.

Lemma store_flag_counted (m : M globals unit) :
  (forall g g' t r, m g = (g', t, r) ->
     current_rotation g' = current_rotation g /\ rotation_stores t = []) ->
  obeys counted (in_globals m).
Proof.
  intros Hm s s' t r. unfold in_globals.
  destruct (m (sys_globals s)) as [[g' t'] r'] eqn:E. intros H. triple H.
  destruct (Hm _ _ _ _ E) as [Hc Hs]. unfold counted, counted_g.
  cbn [with_globals sys_globals]. rewrite Hc. apply tracks_quiet. exact Hs.
Qed.

Lemma thread_body_counted t body :
  obeys counted_g body -> obeys counted (thread_body t body).
Proof.
  intros Hb s s' tr r. unfold thread_body.
  destruct (body (sys_globals s)) as [[g' t'] [[]|e|]] eqn:E; intros H; triple H;
    apply Hb in E; unfold counted; destruct t; exact E.
Qed.

Lemma thread_turn_eq t flag body s :
  thread_turn t flag body s
  = match status_of t s with
    | Alive =>
        if flag (sys_globals s) then thread_body t body s
        else (set_status t Finished s, [], Return tt)
    | _ => (s, [], Return tt)
    end.
Proof.
  unfold thread_turn. run_monad.
  destruct (status_of t s); try reflexivity.
  destruct (flag (sys_globals s)); [|reflexivity].
  destruct (thread_body t body s) as [[s' tr] r]. reflexivity.
Qed.

Lemma thread_turn_counted t flag body :
  obeys counted_g body -> obeys counted (thread_turn t flag body).
Proof.
  intros Hb s s' tr r. rewrite thread_turn_eq.
  destruct (status_of t s); try (intros H; triple H; constructor).
  destruct (flag (sys_globals s)).
  - apply thread_body_counted. exact Hb.
  - intros H. triple H. destruct t; constructor.
Qed.

Lemma store_video_capture_running_effect b g g' t r :
  store_video_capture_running b g = (g', t, r) ->
  g' = set_video_capture_running b g /\ t = [StoreVideoFlag b] /\ r = Return tt.
Proof. intros H. triple H. auto. Qed.

Lemma store_motor_running_effect b g g' t r :
  store_motor_running b g = (g', t, r) ->
  g' = set_motor_running b g /\ t = [StoreMotorFlag b] /\ r = Return tt.
Proof. intros H. triple H. auto. Qed.

Lemma store_video_capture_running_counted b :
  obeys counted (in_globals (store_video_capture_running b)).
Proof.
  apply store_flag_counted. intros g g' t r H.
  apply store_video_capture_running_effect in H. destruct H as (-> & -> & _). auto.
Qed.

Lemma store_motor_running_counted b :
  obeys counted (in_globals (store_motor_running b)).
Proof.
  apply store_flag_counted. intros g g' t r H.
  apply store_motor_running_effect in H. destruct H as (-> & -> & _). auto.
Qed.

Create HintDb counting.

#[local] Hint Resolve counted_stepwise obeys_ret obeys_raise obeys_pending
  obeys_read_state emit_counted set_status_counted
  store_video_capture_running_counted store_motor_running_counted
  motor_sync_body_counted capture_and_process_video_body_counted
  thread_body_counted thread_turn_counted : counting.

Lemma thread_start_counted t : obeys counted (thread_start t).
Proof.
  unfold thread_start.
  repeat (apply obeys_bind; [auto with counting | | intros ?]); auto with counting.
  destruct t; auto with counting.
Qed.

Lemma thread_join_counted t flag pass :
  (forall body, pass = Some body -> obeys counted_g body) ->
  obeys counted (thread_join t flag pass).
Proof.
  intros Hp. unfold thread_join.
  apply obeys_bind; [auto with counting | auto with counting | intros s].
  destruct (status_of t s); auto with counting.
  apply obeys_bind; [auto with counting | | intros _].
  { destruct pass as [body|]; auto with counting. }
  apply obeys_bind; [auto with counting | | intros _; auto with counting].
  apply thread_turn_counted. intros g g' tr r H. triple H. constructor.
Qed.

Lemma call_loop_counted interp ns sched : obeys counted (call_loop interp ns sched).
Proof.
  induction sched as [|a rest IH]; cbn [call_loop]; [auto with counting|].
  destruct a as [c o | p | l].
  - apply obeys_bind; [auto with counting | | intros _; exact IH].
    unfold video_turn. auto with counting.
  - apply obeys_bind; [auto with counting | | intros _; exact IH].
    unfold motor_turn. auto with counting.
  - apply obeys_bind; [auto with counting | | intros heard].
    + destruct l; cbn [listen_for_phrase]; auto with counting.
    + destruct heard; [|exact IH]. unfold logger_info. auto with counting.
Qed.

Lemma tavus_cvi_meeting_counted interp ns url sched fl :
  obeys counted (tavus_cvi_meeting interp ns url sched fl).
Proof.
  unfold tavus_cvi_meeting, logger_info.
  repeat (apply obeys_bind; [auto with counting | | intros _]);
    auto using thread_start_counted with counting.
  apply obeys_try_finally; [auto with counting | | ].
  - apply obeys_try_except; [auto with counting | apply call_loop_counted |].
    intros e h. destruct (is_Exception e); [|discriminate].
    intros H. injection H as <-. unfold logger_error. auto with counting.
  - repeat (apply obeys_bind; [auto with counting | | intros _]); auto with counting.
    + apply thread_join_counted. intros body.
      destruct (inflight_video fl) as [[c o]|]; cbn [option_map]; [|discriminate].
      intros H. injection H as <-. auto with counting.
    + apply thread_join_counted. intros body.
      destruct (inflight_motor fl) as [p|]; cbn [option_map]; [|discriminate].
      intros H. injection H as <-. auto with counting.
Qed.

(** ** The rotation tracker *)

Lemma run_eta {A B C} (x : A * B * C) : x = (fst (fst x), snd (fst x), snd x).
Proof. destruct x as [[a b] c]. reflexivity. Qed.

(** C4, the claim as stated fails: a session does not start from index 0
    but from the index the previous session left.  In the module as written
    the second call starts with the index at 1, and after its one accepted
    tick the index is 2, not 1 mod TOTAL_ROTATIONS. *)
Lemma C4_counterexample :
  index_of (fst (fst first_call)) = 1 /\
  rotation_stores (snd (fst second_call)) = [2] /\
  index_of (fst (fst second_call)) = 2 /\
  (index_of (fst (fst second_call))
   =? Z.of_nat (length (rotation_stores (snd (fst second_call)))) mod TOTAL_ROTATIONS)
  = false.
Proof. repeat split; vm_compute; reflexivity. Qed.

(** C4, amended: in a session that starts with the index at i, in range, the
    j-th accepted tick stores (i + j) mod TOTAL_ROTATIONS, so that after k
    accepted ticks the index is (i + k) mod TOTAL_ROTATIONS; a session
    without a tick leaves it at i; every value it takes lies in
    0..TOTAL_ROTATIONS-1; nothing but a tick moves it, no tick moves it by
    more than one, and nothing resets it, the start of the session
    included. *)
Theorem C4_index_is_start_plus_ticks_mod_N :
  forall interp ns url sched fl s s' t r,
    in_range (index_of s) ->
    tavus_cvi_meeting interp ns url sched fl s = (s', t, r) ->
    rotation_stores t
      = map (fun j => (index_of s + Z.of_nat j) mod TOTAL_ROTATIONS)
            (seq 1 (length (rotation_stores t))) /\
    index_of s'
      = (index_of s + Z.of_nat (length (rotation_stores t))) mod TOTAL_ROTATIONS /\
    (rotation_stores t = [] -> index_of s' = index_of s) /\
    in_range (index_of s') /\
    Forall in_range (rotation_stores t).
Proof.
  intros interp ns url sched fl s s' t r H0 Hrun.
  pose proof (tavus_cvi_meeting_counted interp ns url sched fl _ _ _ _ Hrun) as Ht.
  unfold counted, counted_g in Ht. fold (index_of s) (index_of s') in Ht.
  destruct (tracks_stores _ _ _ Ht) as [Hs Hl].
  destruct (tracks_index _ _ _ H0 Ht) as (Hi & Hr & Hall).
  split; [exact Hs|]. split; [exact Hi|]. split; [|split; [exact Hr | exact Hall]].
  intros E. rewrite Hl, E. reflexivity.
Qed.

Lemma C4_index_witness :
  in_range (index_of (fst (fst first_call))) /\
  rotation_stores (snd (fst second_call)) = [2] /\
  index_of (fst (fst second_call))
  = (index_of (fst (fst first_call))
     + Z.of_nat (length (rotation_stores (snd (fst second_call))))) mod TOTAL_ROTATIONS.
Proof.
  assert (E1 : index_of (fst (fst first_call)) = 1) by (vm_compute; reflexivity).
  assert (H0 : in_range (index_of (fst (fst first_call))))
    by (rewrite E1; unfold in_range, TOTAL_ROTATIONS; lia).
  split; [exact H0|]. split; [vm_compute; reflexivity|].
  exact (proj1 (proj2
    (C4_index_is_start_plus_ticks_mod_N INTER_NEAREST module_namespace "url"
       [MotorTurn hall_away; MotorTurn hall_at_mark; ListenTurn Heard]
       no_inflight (fst (fst first_call)) _ _ _ H0 (run_eta second_call)))).
Defined.

(** C10: [current_rotation] is not reset when a session ends nor when the
    next one starts: at the end of a session it holds the last value a tick
    stored, the ticks of the next session count on from it, the first of them
    storing its successor (mod TOTAL_ROTATIONS), and it stays in
    0..TOTAL_ROTATIONS-1 throughout. *)
Theorem C10_index_carries_over_sessions :
  forall interp ns url1 sched1 fl1 url2 sched2 fl2 s s1 t1 s2 t2 r2,
    in_range (index_of s) ->
    tavus_cvi_meeting interp ns url1 sched1 fl1 s = (s1, t1, Return tt) ->
    tavus_cvi_meeting interp ns url2 sched2 fl2 s1 = (s2, t2, r2) ->
    index_of s1 = last (rotation_stores t1) (index_of s) /\
    rotation_stores t2 = ticks_from (index_of s1) (length (rotation_stores t2)) /\
    match rotation_stores t2 with
    | [] => index_of s2 = index_of s1
    | v :: _ => v = (index_of s1 + 1) mod TOTAL_ROTATIONS
    end /\
    in_range (index_of s1) /\ in_range (index_of s2) /\
    Forall in_range (rotation_stores t1 ++ rotation_stores t2).
Proof.
  intros interp ns url1 sched1 fl1 url2 sched2 fl2 s s1 t1 s2 t2 r2 Hs H1 H2.
  apply tavus_cvi_meeting_counted in H1, H2.
  unfold counted, counted_g in H1, H2.
  fold (index_of s) (index_of s1) in H1. fold (index_of s1) (index_of s2) in H2.
  destruct (tracks_stores _ _ _ H1) as [_ Hl1].
  destruct (tracks_stores _ _ _ H2) as [Hs2 Hl2].
  destruct (tracks_index _ _ _ Hs H1) as (_ & Hr1 & Hall1).
  destruct (tracks_index _ _ _ Hr1 H2) as (_ & Hr2 & Hall2).
  repeat split; try assumption; try apply Hr1; try apply Hr2.
  - destruct (rotation_stores t2) as [|v rest]; [exact Hl2|].
    cbn [length] in Hs2. rewrite ticks_from_S in Hs2. now injection Hs2.
  - apply Forall_app. split; assumption.
Qed.

Lemma C10_index_witness :
  in_range (index_of module_loaded) /\
  first_call = (fst (fst first_call), snd (fst first_call), Return tt) /\
  index_of (fst (fst first_call)) = 1 /\
  rotation_stores (snd (fst second_call)) = [2] /\
  match rotation_stores (snd (fst second_call)) with
  | [] => index_of (fst (fst second_call)) = index_of (fst (fst first_call))
  | v :: _ => v = (index_of (fst (fst first_call)) + 1) mod TOTAL_ROTATIONS
  end.
Proof.
  assert (H0 : in_range (index_of module_loaded)) by (unfold in_range, index_of, TOTAL_ROTATIONS; cbn; lia).
  assert (H1 : first_call = (fst (fst first_call), snd (fst first_call), Return tt))
    by (vm_compute; reflexivity).
  split; [exact H0|]. split; [exact H1|].
  split; [vm_compute; reflexivity|]. split; [vm_compute; reflexivity|].
  exact (proj1 (proj2 (proj2
    (C10_index_carries_over_sessions INTER_NEAREST module_namespace
       "url" [MotorTurn hall_at_mark; ListenTurn Heard] no_inflight
       "url" [MotorTurn hall_away; MotorTurn hall_at_mark; ListenTurn Heard] no_inflight
       module_loaded _ _ _ _ _ H0 H1 (run_eta second_call))))).
Defined.

(** ** The sensor loop *)

(** C5, the claim as stated fails.  With a helper bound, a level held high
    over three passes is counted three times.  In the module as written the
    second of two marks is not counted, and a high level is counted again by
    the next call although the signal never went low in between. *)
Lemma C5_counterexample :
  rotation_stores (snd (fst held_high_bound)) = [1; 2; 3] /\
  rotation_stores (snd (fst two_marks)) = [1] /\
  rotation_stores (snd (fst first_call)) = [1] /\
  rotation_stores (snd (fst next_call_still_high)) = [2].
Proof. repeat split; vm_compute; reflexivity. Qed.

(** C5, amended: the loop has no debounce window and remembers no sensor
    level: a pass that reads HIGH stores the successor of the index (mod
    TOTAL_ROTATIONS), whatever was read before and however long ago; a pass
    that reads LOW leaves the globals as they are and stores nothing. *)
Theorem C5_each_high_pass_is_a_tick :
  forall ns (p : motor_poll) (g : globals),
    fst (fst (motor_sync_body ns p g))
    = (if hall_high p then set_current_rotation (next_rotation g) g else g) /\
    rotation_stores (snd (fst (motor_sync_body ns p g)))
    = (if hall_high p then [next_rotation g] else []).
Proof.
  intros ns p g.
  destruct (motor_sync_body_effect ns p g _ _ _ (run_eta _)) as (H1 & H2 & _).
  split; assumption.
Qed.

(** ** The dispatch *)

(** C1, the code at the failing input: in the module as written
    [send_next_frame_slice] raises NameError before any socket call, for
    every state and every behaviour of the Bluetooth stack; at the first
    HIGH reading of a call the sensor thread dies of it, having sent
    nothing. *)
Theorem C1_dispatch_raises_NameError :
  (forall (o : bt_outcome) (g : globals),
     send_next_frame_slice module_namespace o g
     = (g, [], Raise (Exception (NameError "get_frame_slice")))) /\
  motor_thread (fst (fst two_marks)) = Died (Exception (NameError "get_frame_slice")) /\
  count is_BtSend (snd (fst two_marks)) = 0%nat.
Proof.
  split; [intros o g; reflexivity|]. split; vm_compute; reflexivity.
Qed.

(** ** The session, written out *)

Lemma tavus_cvi_meeting_eq interp ns url sched fl s :
  tavus_cvi_meeting interp ns url sched fl s
  = match call_loop interp ns sched (started s) with
    | (s1, t1, Pending) => (s1, prologue_events url ++ t1, Pending)
    | (s1, t1, r1) =>
        match call_teardown interp ns fl s1 with
        | (s2, t2, Return _) =>
            (s2, prologue_events url ++ (t1 ++ fst (after_except r1)) ++ t2,
             snd (after_except r1))
        | (s2, t2, r3) =>
            (s2, prologue_events url ++ (t1 ++ fst (after_except r1)) ++ t2, r3)
        end
    end.
Proof.
  unfold tavus_cvi_meeting. fold (call_teardown interp ns fl).
  unfold try_finally, try_except, thread_start.
  run_monad. cbn [with_globals sys_globals set_status video_thread motor_thread].
  change {| sys_globals := set_motor_running true (set_video_capture_running true (sys_globals s));
            video_thread := Alive; motor_thread := Alive |} with (started s).
  destruct (call_loop interp ns sched (started s)) as [[s1 t1] [[]|e|]].
  - cbn [after_except fst snd].
    destruct (call_teardown interp ns fl s1) as [[s2 t2] [[]|e2|]];
      rewrite ?app_nil_r; reflexivity.
  - cbn [after_except]. destruct (is_Exception e); cbn [fst snd];
      destruct (call_teardown interp ns fl s1) as [[s2 t2] [[]|e2|]];
      rewrite ?app_nil_r; reflexivity.
  - reflexivity.
Qed.

Lemma loop_step_refl s : loop_step s [] s.
Proof. split; auto. Qed.

Lemma loop_step_trans s t1 s1 t2 s2 :
  loop_step s t1 s1 -> loop_step s1 t2 s2 -> loop_step s (t1 ++ t2) s2.
Proof.
  intros [Hv1 Hm1 Hvs1 Hms1 Hd1] [Hv2 Hm2 Hvs2 Hms2 Hd2]. split.
  - congruence.
  - congruence.
  - auto.
  - auto.
  - intros He. destruct (Hd1 He) as [E1 C1]. rewrite <- E1 in He.
    destruct (Hd2 He) as [E2 C2]. split; [congruence|].
    rewrite count_app, C1, C2. reflexivity.
Qed.

Lemma video_turn_spec interp c o s :
  exists s' t, video_turn interp c o s = (s', t, Return tt) /\ loop_step s t s'.
Proof.
  unfold video_turn. rewrite thread_turn_eq. cbn [status_of].
  destruct (video_thread s) eqn:Ev;
    try (exists s, []; split; [reflexivity | apply loop_step_refl]).
  destruct (video_capture_running (sys_globals s)) eqn:Ef.
  - unfold thread_body.
    destruct (capture_and_process_video_body interp c o (sys_globals s))
      as [[g' tr] r] eqn:Eb.
    apply capture_and_process_video_body_effect in Eb.
    destruct Eb as (-> & _ & _ & Hr).
    destruct r as [[]|e|]; [| |contradiction]; eexists; eexists;
      (split; [reflexivity|]); split; cbn; rewrite ?Ev; auto; discriminate.
  - eexists; eexists. split; [reflexivity|].
    split; cbn; rewrite ?Ev; auto; discriminate.
Qed.

Lemma motor_turn_spec ns p s :
  exists s' t, motor_turn ns p s = (s', t, Return tt) /\ loop_step s t s'.
Proof.
  unfold motor_turn. rewrite thread_turn_eq. cbn [status_of].
  destruct (motor_thread s) eqn:Em;
    try (exists s, []; split; [reflexivity | apply loop_step_refl]).
  destruct (motor_running (sys_globals s)) eqn:Ef.
  - unfold thread_body.
    destruct (motor_sync_body ns p (sys_globals s)) as [[g' tr] r] eqn:Eb.
    apply motor_sync_body_effect in Eb.
    destruct Eb as (-> & _ & Hg & Hr).
    destruct r as [[]|e|]; [| |contradiction]; eexists; eexists;
      (split; [reflexivity|]); split; cbn; rewrite ?Em;
      try (destruct (hall_high p); reflexivity); auto; discriminate.
  - eexists; eexists. split; [reflexivity|].
    split; cbn; rewrite ?Em; auto; discriminate.
Qed.

Lemma call_loop_spec interp ns sched s :
  exists s' t,
    call_loop interp ns sched s = (s', t, loop_result (first_end sched)) /\
    loop_step s t s'.
Proof.
  revert s. induction sched as [|a rest IH]; intros s.
  - exists s, []. split; [reflexivity | apply loop_step_refl].
  - destruct a as [c o | p | l]; cbn [call_loop first_end].
    + destruct (video_turn_spec interp c o s) as (s1 & t1 & E1 & L1).
      destruct (IH s1) as (s2 & t2 & E2 & L2).
      exists s2, (t1 ++ t2). split; [|eapply loop_step_trans; eassumption].
      unfold bind. rewrite E1, E2. reflexivity.
    + destruct (motor_turn_spec ns p s) as (s1 & t1 & E1 & L1).
      destruct (IH s1) as (s2 & t2 & E2 & L2).
      exists s2, (t1 ++ t2). split; [|eapply loop_step_trans; eassumption].
      unfold bind. rewrite E1, E2. reflexivity.
    + destruct l as [| |e].
      * exists s, [LogInfo "Exit phrase detected. Ending call."].
        split; [reflexivity|]. split; auto.
      * destruct (IH s) as (s2 & t2 & E2 & L2).
        exists s2, t2. split; [|exact L2].
        unfold bind. cbn [listen_for_phrase ret]. rewrite E2. reflexivity.
      * exists s, []. split; [reflexivity | apply loop_step_refl].
Qed.

(** ** Joining a thread whose flag is cleared *)

Lemma motor_sync_body_keeps_flags ns p : keeps_flags (motor_sync_body ns p).
Proof.
  intros g g' tr r H. apply motor_sync_body_effect in H.
  destruct H as (-> & _ & _ & Hr). destruct (hall_high p); auto.
Qed.

Lemma capture_and_process_video_body_keeps_flags interp c o :
  keeps_flags (capture_and_process_video_body interp c o).
Proof.
  intros g g' tr r H. apply capture_and_process_video_body_effect in H.
  destruct H as (-> & _ & _ & Hr). auto.
Qed.

Lemma thread_join_spec t pass s :
  t <> MainThread ->
  status_of t s <> NotStarted ->
  flag_of t (sys_globals s) = false ->
  (forall body, pass = Some body -> keeps_flags body) ->
  exists s' mid,
    thread_join t (flag_of t) pass s = (s', mid ++ [ThreadJoin t], Return tt) /\
    thread_ended (status_of t s') = true /\
    video_capture_running (sys_globals s') = video_capture_running (sys_globals s) /\
    motor_running (sys_globals s') = motor_running (sys_globals s) /\
    (forall t', thread_name_eqb t' t = false -> status_of t' s' = status_of t' s).
Proof.
  intros Ht Hst Hflag Hpass.
  unfold thread_join, bind, read_state.
  destruct (status_of t s) eqn:Est; [contradiction | | |].
  - destruct pass as [body|].
    + specialize (Hpass body eq_refl). unfold thread_body.
      destruct (body (sys_globals s)) as [[g' tr] r] eqn:Eb.
      destruct (Hpass _ _ _ _ Eb) as (Hr & Hv & Hm).
      destruct r as [[]|e|]; [| |contradiction]; rewrite thread_turn_eq;
        (destruct t; [contradiction | |]);
        cbn [status_of set_status flag_of with_globals sys_globals
             video_thread motor_thread] in *;
        rewrite ?Est, ?Hv, ?Hm, ?Hflag;
        eexists; exists tr;
        (split; [cbn [emit app]; rewrite ?app_nil_r; reflexivity|]);
        repeat split; auto;
        try (intros [] E; try discriminate; reflexivity);
        cbn [sys_globals]; congruence.
    + cbn [ret]. rewrite thread_turn_eq, Est, Hflag.
      exists (set_status t Finished s), [].
      split; [reflexivity|].
      destruct t; [contradiction | |]; repeat split; auto;
        intros [] E; try discriminate; reflexivity.
  - exists s, []. split; [reflexivity|]. rewrite Est. repeat split; auto.
  - exists s, []. split; [reflexivity|]. rewrite Est. repeat split; auto.
Qed.

Lemma call_teardown_spec interp ns fl s :
  video_thread s <> NotStarted ->
  motor_thread s <> NotStarted ->
  exists s' during_video during_motor,
    call_teardown interp ns fl s
    = (s',
       [StoreVideoFlag false; StoreMotorFlag false]
         ++ during_video ++ [ThreadJoin VideoThread]
         ++ during_motor ++ [ThreadJoin MotorThread; Pkill; LogInfo "Call ended."],
       Return tt) /\
    video_capture_running (sys_globals s') = false /\
    motor_running (sys_globals s') = false /\
    thread_ended (video_thread s') = true /\
    thread_ended (motor_thread s') = true.
Proof.
  intros Hv Hm. unfold call_teardown. run_monad.
  cbn [with_globals sys_globals video_thread motor_thread].
  match goal with
  | |- context [thread_join VideoThread _ ?p ?sa] =>
      destruct (thread_join_spec VideoThread p sa) as (sb & dv & Ej & Hev & Hfv & Hfm & Ho)
  end; [discriminate | exact Hv | reflexivity | |].
  { intros body. destruct (inflight_video fl) as [[c o]|]; cbn [option_map]; [|discriminate].
    intros E. injection E as <-. apply capture_and_process_video_body_keeps_flags. }
  cbn [flag_of] in Ej. rewrite Ej.
  match goal with
  | |- context [thread_join MotorThread _ ?p sb] =>
      destruct (thread_join_spec MotorThread p sb) as (sc & dm & Ej' & Hem & Hfv' & Hfm' & Ho')
  end; [discriminate | | | |].
  { rewrite (Ho MotorThread eq_refl). exact Hm. }
  { cbn [flag_of]. rewrite Hfm. reflexivity. }
  { intros body. destruct (inflight_motor fl) as [p|]; cbn [option_map]; [|discriminate].
    intros E. injection E as <-. apply motor_sync_body_keeps_flags. }
  cbn [flag_of] in Ej'. rewrite Ej'.
  exists sc, dv, dm. split.
  - cbn [app]. rewrite <- !app_assoc. reflexivity.
  - pose proof (Ho' VideoThread eq_refl) as Eo. cbn [status_of] in *.
    rewrite Hfv', Hfv, Hfm', Hfm, Eo. repeat split; auto.
Qed.

(** ** Teardown *)

Lemma first_end_ends sched l : first_end sched = Some l -> l <> NotHeard.
Proof.
  induction sched as [|a rest IH]; cbn [first_end]; [discriminate|].
  destruct a as [c o | p | [| |e]]; auto; intros H; injection H as <-; discriminate.
Qed.

(** C8: however the session loop ends (the exit phrase is heard, the
    [await] raises an error, or it raises a cancellation), the session comes
    back (returning, or re-raising what [except Exception] does not catch)
    only after it has cleared both flags and joined both threads, in that
    order; both flags are then false and both threads have ended.  [cleanup]
    clears both flags too. *)
Theorem C8_teardown_on_every_end :
  forall interp ns url sched fl s l,
    first_end sched = Some l ->
    (exists s' before during_video during_motor,
       tavus_cvi_meeting interp ns url sched fl s
       = (s',
          before
            ++ [StoreVideoFlag false; StoreMotorFlag false]
            ++ during_video ++ [ThreadJoin VideoThread]
            ++ during_motor ++ [ThreadJoin MotorThread; Pkill; LogInfo "Call ended."],
          session_result l) /\
       session_result l <> Pending /\
       video_capture_running (sys_globals s') = false /\
       motor_running (sys_globals s') = false /\
       thread_ended (video_thread s') = true /\
       thread_ended (motor_thread s') = true) /\
    (forall g,
       fst (fst (cleanup g))
       = set_motor_running false (set_video_capture_running false g)).
Proof.
  intros interp ns url sched fl s l Hend. split; [|reflexivity].
  pose proof (first_end_ends _ _ Hend) as Hl.
  rewrite tavus_cvi_meeting_eq.
  destruct (call_loop_spec interp ns sched (started s)) as (s1 & t1 & E1 & L1).
  rewrite E1, Hend.
  destruct (call_teardown_spec interp ns fl s1) as (s2 & dv & dm & E2 & Hfv & Hfm & Hev & Hem).
  { apply (ls_video_started _ _ _ L1). discriminate. }
  { apply (ls_motor_started _ _ _ L1). discriminate. }
  exists s2, (prologue_events url ++ t1 ++ fst (after_except (loop_result (Some l)))), dv, dm.
  assert (Hres : snd (after_except (loop_result (Some l))) = session_result l).
  { destruct l as [| |e]; [reflexivity | contradiction |].
    cbn [loop_result after_except session_result]. destruct (is_Exception e); reflexivity. }
  split; [|repeat split; auto].
  - destruct l as [| |e]; [| contradiction |];
      cbn [loop_result] in *; rewrite E2, Hres, <- !app_assoc; reflexivity.
  - destruct l as [| |e]; [discriminate | contradiction |].
    cbn [session_result]. destruct (is_Exception e); discriminate.
Qed.

Lemma C8_teardown_witness :
  first_end cancelled_call_schedule = Some (ListenRaises CancelledError) /\
  session_result (ListenRaises CancelledError) = Raise CancelledError /\
  exists s' before during_video during_motor,
    tavus_cvi_meeting INTER_NEAREST module_namespace "url"
      cancelled_call_schedule both_inflight module_loaded
    = (s',
       before
         ++ [StoreVideoFlag false; StoreMotorFlag false]
         ++ during_video ++ [ThreadJoin VideoThread]
         ++ during_motor ++ [ThreadJoin MotorThread; Pkill; LogInfo "Call ended."],
       session_result (ListenRaises CancelledError)) /\
    session_result (ListenRaises CancelledError) <> Pending /\
    video_capture_running (sys_globals s') = false /\
    motor_running (sys_globals s') = false /\
    thread_ended (video_thread s') = true /\
    thread_ended (motor_thread s') = true.
Proof.
  split; [reflexivity|]. split; [reflexivity|].
  exact (proj1 (C8_teardown_on_every_end INTER_NEAREST module_namespace "url"
                  cancelled_call_schedule both_inflight module_loaded
                  (ListenRaises CancelledError) eq_refl)).
Defined.

(** ** A capture backend that fails *)

Lemma video_turn_capture_raises interp e o s :
  video_thread s = Alive ->
  video_capture_running (sys_globals s) = true ->
  video_turn interp (GrabRaises e) o s
  = (set_status VideoThread (Died (Exception e)) (with_globals (sys_globals s) s),
     [Grab], Return tt).
Proof.
  intros Hst Hflag. unfold video_turn. rewrite thread_turn_eq.
  cbn [status_of]. rewrite Hst, Hflag. unfold thread_body.
  rewrite capture_and_process_video_body_raises. reflexivity.
Qed.

(** C7, the claim as stated fails: with the capture backend unavailable from
    the first grab, the capture thread dies at that grab and never grabs
    again (no retry), while the session is still in its loop (no abort), both
    flags are still set, the sensor thread is still alive, and no teardown
    has run. *)
Lemma C7_counterexample :
  snd capture_outage = Pending /\
  video_thread (fst (fst capture_outage)) = Died (Exception ScreenShotError) /\
  motor_thread (fst (fst capture_outage)) = Alive /\
  video_capture_running (sys_globals (fst (fst capture_outage))) = true /\
  motor_running (sys_globals (fst (fst capture_outage))) = true /\
  count is_Grab (snd (fst capture_outage)) = 1%nat /\
  existsb (fun ev => match ev with ThreadJoin _ => true | _ => false end)
          (snd (fst capture_outage)) = false.
Proof. repeat split; vm_compute; reflexivity. Qed.

(** C7, amended: when the capture backend raises at a grab, the exception is
    not caught and nothing is retried: the capture thread dies of it at that
    first failure and grabs no more; the session is not told and is not
    aborted: as long as its own loop does not end (exit phrase or an
    exception at its [await]) it stays in the call with both flags set. *)
Theorem C7_capture_failure_kills_thread_not_session :
  forall interp ns url e o rest fl s,
    first_end rest = None ->
    exists s' t,
      tavus_cvi_meeting interp ns url (VideoTurn (GrabRaises e) o :: rest) fl s
      = (s', t, Pending) /\
      video_thread s' = Died (Exception e) /\
      video_capture_running (sys_globals s') = true /\
      motor_running (sys_globals s') = true /\
      count is_Grab t = 1%nat.
Proof.
  intros interp ns url e o rest fl s Hend.
  rewrite tavus_cvi_meeting_eq. cbn [call_loop]. unfold bind.
  rewrite video_turn_capture_raises by reflexivity.
  match goal with
  | |- context [call_loop interp ns rest ?s1] =>
      destruct (call_loop_spec interp ns rest s1) as (s2 & t2 & E2 & L2)
  end.
  rewrite E2, Hend. cbn [loop_result].
  destruct (ls_video_ended _ _ _ L2 eq_refl) as [Hdead Hgrab].
  eexists; eexists. split; [reflexivity|].
  repeat split.
  - exact Hdead.
  - rewrite (ls_video_flag _ _ _ L2). reflexivity.
  - rewrite (ls_motor_flag _ _ _ L2). reflexivity.
  - rewrite !count_app, Hgrab. reflexivity.
Qed.

Lemma C7_capture_failure_witness :
  first_end (tl capture_outage_schedule) = None /\
  exists s' t,
    tavus_cvi_meeting INTER_NEAREST module_namespace "url"
      (VideoTurn (GrabRaises ScreenShotError) bt_ok :: tl capture_outage_schedule)
      no_inflight module_loaded
    = (s', t, Pending) /\
    video_thread s' = Died (Exception ScreenShotError) /\
    video_capture_running (sys_globals s') = true /\
    motor_running (sys_globals s') = true /\
    count is_Grab t = 1%nat.
Proof.
  split; [reflexivity|].
  exact (C7_capture_failure_kills_thread_not_session INTER_NEAREST module_namespace "url"
           ScreenShotError bt_ok (tl capture_outage_schedule) no_inflight module_loaded
           eq_refl).
Defined.

(** ** Sends that fail *)

Lemma failed_send_counts c sd (data : bytes) :
  c <> None \/ sd <> None ->
  bt_result (bt_on_open_socket c sd) = Return tt /\
  count is_BtConnect (bt_events (bt_on_open_socket c sd) data) = 1%nat /\
  count is_LogError (bt_events (bt_on_open_socket c sd) data) = 1%nat /\
  count is_BtClose (bt_events (bt_on_open_socket c sd) data) = 1%nat.
Proof.
  intros H. destruct c as [ec|]; destruct sd as [es|];
    try (repeat split; reflexivity).
  destruct H as [H|H]; contradiction.
Qed.

Lemma with_globals_same s : with_globals (sys_globals s) s = s.
Proof. destruct s. reflexivity. Qed.

Lemma video_turn_grabbed interp pixels o s :
  video_thread s = Alive ->
  video_capture_running (sys_globals s) = true ->
  bt_result o = Return tt ->
  exists payload,
    video_turn interp (Grabbed pixels) o s
    = (s, Grab :: bt_events o payload ++ [Sleep 10], Return tt).
Proof.
  intros Hst Hflag Hres.
  destruct (capture_and_process_video_body_grabbed interp pixels o (sys_globals s))
    as [payload [_ E]].
  exists payload. unfold video_turn. rewrite thread_turn_eq.
  cbn [status_of]. rewrite Hst, Hflag. unfold thread_body.
  rewrite E, Hres, with_globals_same. reflexivity.
Qed.

Lemma failed_sends_loop interp ns pixels c sd n s :
  c <> None \/ sd <> None ->
  video_thread s = Alive ->
  video_capture_running (sys_globals s) = true ->
  exists t,
    call_loop interp ns (repeat (VideoTurn (Grabbed pixels) (bt_on_open_socket c sd)) n) s
    = (s, t, Pending) /\
    count is_BtConnect t = n /\ count is_LogError t = n /\ count is_BtClose t = n.
Proof.
  intros Hfail Hst Hflag. induction n as [|n (t & E & Hc & Hl & Hcl)].
  - exists []. repeat split.
  - destruct (failed_send_counts c sd [] Hfail) as (Hres & _).
    destruct (video_turn_grabbed interp pixels _ s Hst Hflag Hres) as [payload Ev].
    destruct (failed_send_counts c sd payload Hfail) as (_ & Hc1 & Hl1 & Hcl1).
    eexists. cbn [repeat call_loop]. unfold bind. rewrite Ev, E.
    split; [reflexivity|].
    change (Grab :: bt_events (bt_on_open_socket c sd) payload ++ [Sleep 10])
      with ([Grab] ++ bt_events (bt_on_open_socket c sd) payload ++ [Sleep 10]).
    rewrite !count_app, Hc1, Hl1, Hcl1, Hc, Hl, Hcl. repeat split.
Qed.

(** Any number of sends that fail one after the other, in the capture loop. *)
Lemma failed_sends_leave_session_running interp ns url pixels c sd n fl s :
  c <> None \/ sd <> None ->
  exists t,
    tavus_cvi_meeting interp ns url
      (repeat (VideoTurn (Grabbed pixels) (bt_on_open_socket c sd)) n) fl s
    = (started s, t, Pending) /\
    count is_BtConnect t = n /\ count is_LogError t = n /\ count is_BtClose t = n.
Proof.
  intros Hfail. rewrite tavus_cvi_meeting_eq.
  destruct (failed_sends_loop interp ns pixels c sd n (started s) Hfail eq_refl eq_refl)
    as (t & E & Hc & Hl & Hcl).
  rewrite E. eexists. split; [reflexivity|].
  rewrite !count_app, Hc, Hl, Hcl. repeat split.
Qed.

(** C6, the claim as stated fails: after six consecutive failed sends the
    session is still in its loop with both flags set and both threads alive
    (no abort, no teardown), and the six calls made six connects in all: none
    reconnected. *)
Lemma C6_counterexample :
  snd six_failed_sends = Pending /\
  video_thread (fst (fst six_failed_sends)) = Alive /\
  motor_thread (fst (fst six_failed_sends)) = Alive /\
  video_capture_running (sys_globals (fst (fst six_failed_sends))) = true /\
  motor_running (sys_globals (fst (fst six_failed_sends))) = true /\
  count is_BtConnect (snd (fst six_failed_sends)) = 6%nat /\
  count is_LogError (snd (fst six_failed_sends)) = 6%nat.
Proof.
  destruct (failed_sends_leave_session_running INTER_NEAREST module_namespace "url"
              white_screen None (Some BluetoothError) 6 no_inflight module_loaded)
    as (t & E & Hc & Hl & _); [right; discriminate|].
  fold six_failed_sends in E. rewrite E. cbn [fst snd]. repeat split; assumption.
Qed.

(** C6, amended: when [connect] or [send] raises, the call logs the error
    once, closes its socket and returns normally; it connects once only,
    keeps no count and reports nothing to its caller, so after any number
    [n] of consecutive failed sends the session is still in its loop, in the
    state it was in when the threads were started (flags set, threads alive),
    with [n] connects, [n] logged errors and [n] closes in the trace. *)
Theorem C6_failed_sends_are_logged_and_dropped :
  forall interp ns url pixels connect_raises send_raises n fl s,
    connect_raises <> None \/ send_raises <> None ->
    exists t,
      tavus_cvi_meeting interp ns url
        (repeat (VideoTurn (Grabbed pixels)
                   (bt_on_open_socket connect_raises send_raises)) n) fl s
      = (started s, t, Pending) /\
      video_thread (started s) = Alive /\
      video_capture_running (sys_globals (started s)) = true /\
      motor_running (sys_globals (started s)) = true /\
      count is_BtConnect t = n /\ count is_LogError t = n /\ count is_BtClose t = n.
Proof.
  intros interp ns url pixels c sd n fl s Hfail.
  destruct (failed_sends_leave_session_running interp ns url pixels c sd n fl s Hfail)
    as (t & E & Hc & Hl & Hcl).
  exists t. repeat split; assumption.
Qed.

Lemma C6_failed_sends_witness :
  (@None exception <> None \/ Some BluetoothError <> None) /\
  exists t,
    tavus_cvi_meeting INTER_NEAREST module_namespace "url"
      (repeat (VideoTurn (Grabbed white_screen)
                 (bt_on_open_socket None (Some BluetoothError))) 6)
      no_inflight module_loaded
    = (started module_loaded, t, Pending) /\
    video_thread (started module_loaded) = Alive /\
    video_capture_running (sys_globals (started module_loaded)) = true /\
    motor_running (sys_globals (started module_loaded)) = true /\
    count is_BtConnect t = 6%nat /\ count is_LogError t = 6%nat /\
    count is_BtClose t = 6%nat.
Proof.
  split; [right; discriminate|].
  exact (C6_failed_sends_are_logged_and_dropped INTER_NEAREST module_namespace "url"
           white_screen None (Some BluetoothError) 6 no_inflight module_loaded
           (or_intror (fun H : Some BluetoothError = None =>
                         eq_ind (Some BluetoothError)
                           (fun o => match o with Some _ => True | None => False end)
                           I None H))).
Defined.

(** * Further properties of the pipeline *)

(** ** What a pass of a worker's loop puts in the trace *)

Lemma capture_and_process_video_body_trace interp c o g g' t r :
  capture_and_process_video_body interp c o g = (g', t, r) ->
  t = [Grab] \/
  exists payload,
    length payload = (64 * (64 * 4))%nat /\
    t = Grab :: bt_events o payload ++ then_sleep 10 (bt_result o).
Proof.
  destruct c as [pixels|e].
  - destruct (capture_and_process_video_body_grabbed interp pixels o g) as [payload [Ep E]].
    rewrite E. intros H. triple H. right. exists payload. split; [|reflexivity].
    destruct (process_frame_for_pov_length interp (screenshot_array pixels)
              (screenshot_array_resizable pixels))
      as [payload' [Ep' L]].
    rewrite Ep in Ep'. injection Ep' as <-. exact L.
  - rewrite capture_and_process_video_body_raises. intros H. triple H. left. reflexivity.
Qed.

Lemma motor_sync_body_trace ns p g g' t r :
  motor_sync_body ns p g = (g', t, r) ->
  (hall_high p = false /\ t = [GpioInput HALL_SENSOR_PIN false; Sleep 1]) \/
  (hall_high p = true /\ ns_get_frame_slice ns = None /\
   t = [GpioInput HALL_SENSOR_PIN true; StoreRotation (next_rotation g)] /\
   r = Raise (Exception (NameError "get_frame_slice"))) \/
  (exists f,
     hall_high p = true /\ ns_get_frame_slice ns = Some f /\
     t = [GpioInput HALL_SENSOR_PIN true; StoreRotation (next_rotation g)]
           ++ bt_events (poll_bt p) (f (next_rotation g))
           ++ then_sleep 1 (bt_result (poll_bt p))).
Proof.
  destruct p as [[|] o]; cbn [hall_high poll_bt].
  - destruct (ns_get_frame_slice ns) as [f|] eqn:E.
    + rewrite (motor_sync_body_high_bound ns f o g E). intros H. triple H.
      right. right. exists f. auto.
    + rewrite (motor_sync_body_high_unbound ns o g E). intros H. triple H.
      right. left. auto.
  - rewrite motor_sync_body_low. intros H. triple H. left. auto.
Qed.

Lemma thread_body_trace t body s s' tr r :
  thread_body t body s = (s', tr, r) ->
  exists g' r',
    body (sys_globals s) = (g', tr, r') /\
    s' = match r' with
         | Raise e => set_status t (Died e) (with_globals g' s)
         | _ => with_globals g' s
         end.
Proof.
  unfold thread_body.
  destruct (body (sys_globals s)) as [[g' tr'] [[]|e|]]; intros H; triple H;
    eexists; eexists; split; reflexivity.
Qed.

Lemma bind_inv {St A B} (m : M St A) (k : A -> M St B) s s' t r :
  bind m k s = (s', t, r) ->
  (exists s1 t1 a t2, m s = (s1, t1, Return a) /\ k a s1 = (s', t2, r) /\ t = t1 ++ t2) \/
  (exists e, m s = (s', t, Raise e) /\ r = Raise e) \/
  (m s = (s', t, Pending) /\ r = Pending).
Proof.
  unfold bind. destruct (m s) as [[s1 t1] [a|e|]].
  - destruct (k a s1) as [[s2 t2] r2] eqn:Ek. intros H. triple H.
    left. exists s1, t1, a, t2. auto.
  - intros H. triple H. right. left. exists e. auto.
  - intros H. triple H. right. right. auto.
Qed.

(** ** A relation kept by every step of a call *)

Section CallRelation.

Variable interp : ndarray -> nat * nat -> nat -> nat -> nat -> Byte.byte.
Variable ns : namespace.
Variable R : system -> list event -> system -> Prop.

Hypothesis R_step : stepwise R.
Hypothesis R_event : forall ev s, session_event ev = true -> R s [ev] s.
Hypothesis R_video_flag :
  forall b s,
    R s [StoreVideoFlag b] (with_globals (set_video_capture_running b (sys_globals s)) s).
Hypothesis R_motor_flag :
  forall b s,
    R s [StoreMotorFlag b] (with_globals (set_motor_running b (sys_globals s)) s).
Hypothesis R_finished :
  forall t s, status_of t s = Alive -> R s [] (set_status t Finished s).
Hypothesis R_video_pass :
  forall c o s s' t r,
    video_thread s = Alive ->
    thread_body VideoThread (capture_and_process_video_body interp c o) s = (s', t, r) ->
    R s t s'.
Hypothesis R_motor_pass :
  forall p s s' t r,
    motor_thread s = Alive ->
    thread_body MotorThread (motor_sync_body ns p) s = (s', t, r) ->
    R s t s'.

Lemma R_same s : R s [] s.
Proof. apply (step_refl R R_step). Qed.

Lemma thread_turn_obeys t flag body :
  (forall s s' tr r,
     status_of t s = Alive -> thread_body t body s = (s', tr, r) -> R s tr s') ->
  obeys R (thread_turn t flag body).
Proof.
  intros Hb s s' tr r. rewrite thread_turn_eq.
  destruct (status_of t s) eqn:Est; try (intros H; triple H; apply R_same).
  destruct (flag (sys_globals s)).
  - apply Hb. exact Est.
  - intros H. triple H. apply R_finished. exact Est.
Qed.

Lemma pending_pass_obeys t s s' tr r :
  thread_body t pending s = (s', tr, r) -> R s tr s'.
Proof.
  intros H. triple H. rewrite with_globals_same. apply R_same.
Qed.

Lemma emit_obeys ev : session_event ev = true -> obeys R (emit ev).
Proof. intros Hev s s' t r H. triple H. apply R_event. exact Hev. Qed.

Lemma thread_join_obeys t flag pass :
  (forall body s s' tr r,
     pass = Some body ->
     status_of t s = Alive -> thread_body t body s = (s', tr, r) -> R s tr s') ->
  obeys R (thread_join t flag pass).
Proof.
  intros Hp s s' tr r. unfold thread_join. unfold bind at 1. unfold read_state.
  destruct (status_of t s) eqn:Est.
  - intros H. triple H. apply R_same.
  - match goal with
    | |- (let (p, _) := ?X in _) = _ -> _ => destruct X as [[sj tj] rj] eqn:H
    end.
    cbn [app]. intros E. triple E. apply bind_inv in H.
    assert (Hrest : obeys R (bind (thread_turn t flag pending)
                               (fun _ => emit (ThreadJoin t)))).
    { apply obeys_bind; [exact R_step | | intros _; apply emit_obeys; reflexivity].
      apply thread_turn_obeys. intros s0 s0' tr0 r0 _. apply pending_pass_obeys. }
    assert (Hpass : forall s1 t1 r1,
               match pass with
               | Some body => thread_body t body
               | None => ret tt
               end s = (s1, t1, r1) -> R s t1 s1).
    { intros s1 t1 r1. destruct pass as [body|].
      - apply (Hp body); [reflexivity | exact Est].
      - intros H1. triple H1. apply R_same. }
    destruct H as [(s1 & t1 & a & t2 & Em & Ek & ->) | [(e & Em & _) | (Em & _)]].
    + apply (step_trans R R_step _ _ s1); [eapply Hpass; exact Em | eapply Hrest; exact Ek].
    + eapply Hpass; exact Em.
    + eapply Hpass; exact Em.
  - apply emit_obeys. reflexivity.
  - apply emit_obeys. reflexivity.
Qed.

Lemma in_globals_store_video_obeys b :
  obeys R (in_globals (store_video_capture_running b)).
Proof. intros s s' t r H. triple H. apply R_video_flag. Qed.

Lemma in_globals_store_motor_obeys b :
  obeys R (in_globals (store_motor_running b)).
Proof. intros s s' t r H. triple H. apply R_motor_flag. Qed.

Lemma call_loop_obeys sched : obeys R (call_loop interp ns sched).
Proof.
  induction sched as [|a rest IH]; cbn [call_loop].
  - apply obeys_pending. exact R_step.
  - destruct a as [c o | p | l].
    + apply obeys_bind; [exact R_step | | intros _; exact IH].
      apply thread_turn_obeys. intros s s' tr r. apply R_video_pass.
    + apply obeys_bind; [exact R_step | | intros _; exact IH].
      apply thread_turn_obeys. intros s s' tr r. apply R_motor_pass.
    + apply obeys_bind; [exact R_step | | intros heard].
      * destruct l; cbn [listen_for_phrase];
          [apply obeys_ret | apply obeys_ret | apply obeys_raise]; exact R_step.
      * destruct heard; [apply emit_obeys; reflexivity | exact IH].
Qed.

Lemma call_teardown_obeys fl : obeys R (call_teardown interp ns fl).
Proof.
  unfold call_teardown.
  apply obeys_bind; [exact R_step | apply in_globals_store_video_obeys | intros _].
  apply obeys_bind; [exact R_step | apply in_globals_store_motor_obeys | intros _].
  apply obeys_bind; [exact R_step | | intros _].
  { apply thread_join_obeys. intros body s s' tr r.
    destruct (inflight_video fl) as [[c o]|]; cbn [option_map]; [|discriminate].
    intros E. injection E as <-. cbn [status_of]. apply R_video_pass. }
  apply obeys_bind; [exact R_step | | intros _].
  { apply thread_join_obeys. intros body s s' tr r.
    destruct (inflight_motor fl) as [p|]; cbn [option_map]; [|discriminate].
    intros E. injection E as <-. cbn [status_of]. apply R_motor_pass. }
  apply obeys_bind; [exact R_step | apply emit_obeys; reflexivity | intros _].
  apply emit_obeys. reflexivity.
Qed.

(** A whole call: after the prologue, the rest of the trace is related to the
    state in which both threads have just been started. *)
Lemma tavus_cvi_meeting_obeys url sched fl s s' t r :
  tavus_cvi_meeting interp ns url sched fl s = (s', t, r) ->
  exists t', t = prologue_events url ++ t' /\ R (started s) t' s'.
Proof.
  rewrite tavus_cvi_meeting_eq.
  destruct (call_loop interp ns sched (started s)) as [[s1 t1] r1] eqn:El.
  pose proof (call_loop_obeys sched _ _ _ _ El) as Hl.
  assert (Hx : R s1 (fst (after_except r1)) s1).
  { destruct r1 as [[]|e|]; cbn [after_except fst]; try apply R_same.
    destruct (is_Exception e); cbn [fst]; [apply R_event; reflexivity | apply R_same]. }
  destruct r1 as [[]|e|].
  - destruct (call_teardown interp ns fl s1) as [[s2 t2] r3] eqn:Et.
    pose proof (call_teardown_obeys fl _ _ _ _ Et) as Htd.
    destruct r3 as [[]|e3|]; intros H; triple H; eexists; (split; [reflexivity|]);
      apply (step_trans R R_step _ _ s1); auto;
      apply (step_trans R R_step _ _ s1); auto.
  - destruct (call_teardown interp ns fl s1) as [[s2 t2] r3] eqn:Et.
    pose proof (call_teardown_obeys fl _ _ _ _ Et) as Htd.
    destruct r3 as [[]|e3|]; intros H; triple H; eexists; (split; [reflexivity|]);
      apply (step_trans R R_step _ _ s1); auto;
      apply (step_trans R R_step _ _ s1); auto.
  - intros H. triple H. eexists. split; [reflexivity | exact Hl].
Qed.

End CallRelation.

(** ** Properties of the whole trace of a call *)

Section TraceProperty.

Variable interp : ndarray -> nat * nat -> nat -> nat -> nat -> Byte.byte.
Variable ns : namespace.
Variable P : list event -> Prop.

Hypothesis P_nil : P [].
Hypothesis P_app : forall t1 t2, P t1 -> P t2 -> P (t1 ++ t2).
Hypothesis P_session : forall ev, session_event ev = true -> P [ev].
Hypothesis P_flags : forall b, P [StoreVideoFlag b] /\ P [StoreMotorFlag b].
Hypothesis P_prologue : forall url, P (prologue_events url).
Hypothesis P_video :
  forall c o g g' t r, capture_and_process_video_body interp c o g = (g', t, r) -> P t.
Hypothesis P_motor :
  forall p g g' t r, motor_sync_body ns p g = (g', t, r) -> P t.

Lemma tavus_cvi_meeting_on_trace url sched fl s :
  P (snd (fst (tavus_cvi_meeting interp ns url sched fl s))).
Proof.
  destruct (tavus_cvi_meeting_obeys interp ns (on_trace P)) with
    (url := url) (sched := sched) (fl := fl) (s := s)
    (s' := fst (fst (tavus_cvi_meeting interp ns url sched fl s)))
    (t := snd (fst (tavus_cvi_meeting interp ns url sched fl s)))
    (r := snd (tavus_cvi_meeting interp ns url sched fl s))
    as (t' & -> & Ht').
  - split; unfold on_trace; auto.
  - intros ev s0 Hev. apply P_session. exact Hev.
  - intros b s0. apply (P_flags b).
  - intros b s0. apply (P_flags b).
  - intros t s0 _. exact P_nil.
  - intros c o s0 s0' t r _ H. apply thread_body_trace in H.
    destruct H as (g' & r' & H & _). eapply P_video. exact H.
  - intros p s0 s0' t r _ H. apply thread_body_trace in H.
    destruct H as (g' & r' & H & _). eapply P_motor. exact H.
  - apply run_eta.
  - apply P_app; [apply P_prologue | exact Ht'].
Qed.

End TraceProperty.

Lemma sent_payloads_app (t1 t2 : list event) :
  sent_payloads (t1 ++ t2) = sent_payloads t1 ++ sent_payloads t2.
Proof.
  induction t1 as [|ev t1 IH]; simpl; [reflexivity|].
  destruct ev; simpl; rewrite ?IH; reflexivity.
Qed.

Lemma bt_events_sockets_closed o (data : bytes) : sockets_closed (bt_events o data).
Proof. destruct o as [[?|] [?|] [?|] [?|]]; reflexivity. Qed.

Lemma bt_events_no_high_read o (data : bytes) : count is_high_read (bt_events o data) = 0%nat.
Proof. destruct o as [[?|] [?|] [?|] [?|]]; reflexivity. Qed.

Lemma sent_payloads_bt_events o (data : bytes) :
  sent_payloads (bt_events o data) = if reaches_send o then [data] else [].
Proof. destruct o as [[?|] [?|] [?|] [?|]]; reflexivity. Qed.

Lemma sockets_closed_app t1 t2 :
  sockets_closed t1 -> sockets_closed t2 -> sockets_closed (t1 ++ t2).
Proof. unfold sockets_closed. intros H1 H2. rewrite !count_app. congruence. Qed.

Lemma then_sleep_plain ms r :
  then_sleep ms r = [] \/ then_sleep ms r = [Sleep ms].
Proof. destruct r as [[]| |]; auto. Qed.

(** X1: in the trace of any call, whatever the Bluetooth stack, the capture
    backend and the sensor do and however the call ends, there are as many
    [sock.close()] as [sock.connect()]: no pass of a loop leaves a socket
    open. *)
Theorem call_closes_every_socket :
  forall interp ns url sched fl s,
    sockets_closed (snd (fst (tavus_cvi_meeting interp ns url sched fl s))).
Proof.
  intros interp ns url sched fl s.
  apply tavus_cvi_meeting_on_trace.
  - reflexivity.
  - apply sockets_closed_app.
  - intros ev Hev. destruct ev; try discriminate; reflexivity.
  - intros b. split; reflexivity.
  - intros url0. reflexivity.
  - intros c o g g' t r H. apply capture_and_process_video_body_trace in H.
    destruct H as [-> | (payload & _ & ->)]; [reflexivity|].
    change (sockets_closed ([Grab] ++ bt_events o payload ++ then_sleep 10 (bt_result o))).
    repeat apply sockets_closed_app; try reflexivity.
    + apply bt_events_sockets_closed.
    + destruct (then_sleep_plain 10 (bt_result o)) as [-> | ->]; reflexivity.
  - intros p g g' t r H. apply motor_sync_body_trace in H.
    destruct H as [(_ & ->) | [(_ & _ & -> & _) | (f & _ & _ & ->)]]; try reflexivity.
    repeat apply sockets_closed_app; try reflexivity.
    + apply bt_events_sockets_closed.
    + destruct (then_sleep_plain 1 (bt_result (poll_bt p))) as [-> | ->]; reflexivity.
Qed.

Lemma whole_frames_app t1 t2 : whole_frames t1 -> whole_frames t2 -> whole_frames (t1 ++ t2).
Proof.
  unfold whole_frames. intros H1 H2. rewrite sent_payloads_app.
  apply Forall_app. split; assumption.
Qed.

(** X2: in the module as written, every payload handed to [sock.send] during
    a call is a whole encoded frame of 64 * 64 * 4 bytes: the capture loop
    sends nothing else, and the dispatch sends nothing. *)
Theorem as_written_only_whole_frames_are_sent :
  forall interp url sched fl s,
    whole_frames (snd (fst (tavus_cvi_meeting interp module_namespace url sched fl s))).
Proof.
  intros interp url sched fl s.
  apply tavus_cvi_meeting_on_trace.
  - constructor.
  - apply whole_frames_app.
  - intros ev Hev. destruct ev; try discriminate; constructor.
  - intros b. split; constructor.
  - intros url0. constructor.
  - intros c o g g' t r H. apply capture_and_process_video_body_trace in H.
    destruct H as [-> | (payload & L & ->)]; [constructor|].
    change (whole_frames ([Grab] ++ bt_events o payload ++ then_sleep 10 (bt_result o))).
    repeat apply whole_frames_app; try constructor.
    + unfold whole_frames. rewrite sent_payloads_bt_events.
      destruct (reaches_send o); constructor; [|constructor].
      rewrite L. reflexivity.
    + destruct (then_sleep_plain 10 (bt_result o)) as [-> | ->]; constructor.
  - intros p g g' t r H. apply motor_sync_body_trace in H.
    destruct H as [(_ & ->) | [(_ & _ & -> & _) | (f & _ & E & _)]];
      [constructor | constructor | discriminate].
Qed.

Lemma tick_per_high_read_app t1 t2 :
  tick_per_high_read t1 -> tick_per_high_read t2 -> tick_per_high_read (t1 ++ t2).
Proof.
  unfold tick_per_high_read. intros H1 H2.
  rewrite rotation_stores_app, length_app, count_app. congruence.
Qed.

Lemma tick_per_high_read_quiet t :
  rotation_stores t = [] -> count is_high_read t = 0%nat -> tick_per_high_read t.
Proof. unfold tick_per_high_read. intros -> ->. reflexivity. Qed.

(** X3: in the trace of any call there are exactly as many stores of
    [current_rotation] as HIGH readings of the hall sensor pin: the index
    moves at every HIGH reading and at nothing else. *)
Theorem call_ticks_once_per_high_read :
  forall interp ns url sched fl s,
    tick_per_high_read (snd (fst (tavus_cvi_meeting interp ns url sched fl s))).
Proof.
  intros interp ns url sched fl s.
  apply tavus_cvi_meeting_on_trace.
  - reflexivity.
  - apply tick_per_high_read_app.
  - intros ev Hev. destruct ev; try discriminate; reflexivity.
  - intros b. split; reflexivity.
  - intros url0. reflexivity.
  - intros c o g g' t r H. apply capture_and_process_video_body_trace in H.
    destruct H as [-> | (payload & _ & ->)]; [reflexivity|].
    change (tick_per_high_read
              ([Grab] ++ bt_events o payload ++ then_sleep 10 (bt_result o))).
    repeat apply tick_per_high_read_app; try reflexivity.
    + apply tick_per_high_read_quiet;
        [apply bt_events_no_store | apply bt_events_no_high_read].
    + destruct (then_sleep_plain 10 (bt_result o)) as [-> | ->]; reflexivity.
  - intros p g g' t r H. apply motor_sync_body_trace in H.
    destruct H as [(_ & ->) | [(_ & _ & -> & _) | (f & _ & _ & ->)]]; try reflexivity.
    repeat apply tick_per_high_read_app; try reflexivity.
    + apply tick_per_high_read_quiet;
        [apply bt_events_no_store | apply bt_events_no_high_read].
    + destruct (then_sleep_plain 1 (bt_result (poll_bt p))) as [-> | ->]; reflexivity.
Qed.

(** ** The sensor thread of the module as written *)

Lemma ticks_once_stepwise : stepwise ticks_once.
Proof.
  split.
  - intros s. unfold ticks_once. cbn [rotation_stores length].
    split; [auto|]. split; [auto|]. intros H. contradiction.
  - intros s t1 s1 t2 s2. unfold ticks_once.
    intros (E1 & L1 & D1) (E2 & L2 & D2).
    rewrite rotation_stores_app.
    destruct (rotation_stores t1) as [|v1 l1] eqn:Et1.
    + cbn [app]. split; [|split].
      * intros He. destruct (E1 He) as [_ He1]. apply (E2 He1).
      * exact L2.
      * exact D2.
    + assert (He1 : thread_ended (motor_thread s1) = true) by (apply D1; discriminate).
      destruct (E2 He1) as [-> He2]. rewrite app_nil_r. split; [|split].
      * intros He. destruct (E1 He) as [Hnil _]. discriminate.
      * exact L1.
      * intros _. exact He2.
Qed.

Lemma ticks_once_quiet s t s' :
  rotation_stores t = [] -> motor_thread s' = motor_thread s -> ticks_once s t s'.
Proof.
  intros Ht Hm. unfold ticks_once. rewrite Ht, Hm. cbn [length].
  split; [auto|]. split; [auto|]. intros H. contradiction.
Qed.

Lemma as_written_call_ticks_once interp url sched fl s s' t r :
  tavus_cvi_meeting interp module_namespace url sched fl s = (s', t, r) ->
  exists t', t = prologue_events url ++ t' /\ ticks_once (started s) t' s'.
Proof.
  apply tavus_cvi_meeting_obeys.
  - exact ticks_once_stepwise.
  - intros ev s0 Hev. apply ticks_once_quiet; [|reflexivity].
    destruct ev; try discriminate; reflexivity.
  - intros b s0. apply ticks_once_quiet; reflexivity.
  - intros b s0. apply ticks_once_quiet; reflexivity.
  - intros th s0 Hst. destruct th; cbn [status_of set_status] in *.
    + apply ticks_once_quiet; reflexivity.
    + apply ticks_once_quiet; reflexivity.
    + unfold ticks_once. cbn [motor_thread rotation_stores length].
      rewrite Hst. repeat split; auto; discriminate.
  - intros c o s0 s0' t0 r0 _ H. apply thread_body_trace in H.
    destruct H as (g' & r' & H & ->).
    apply capture_and_process_video_body_effect in H. destruct H as (_ & Hs & _ & _).
    apply ticks_once_quiet; [exact Hs|]. destruct r'; reflexivity.
  - intros p s0 s0' t0 r0 Hst H. apply thread_body_trace in H.
    destruct H as (g' & r' & H & ->). destruct p as [[|] o].
    + rewrite (motor_sync_body_high_unbound module_namespace o _ eq_refl) in H. triple H.
      unfold ticks_once. cbn [rotation_stores length set_status motor_thread thread_ended].
      rewrite Hst. repeat split; auto; discriminate.
    + rewrite motor_sync_body_low in H. triple H.
      apply ticks_once_quiet; reflexivity.
Qed.

(** X4: in the module as written, a call moves the rotation index at most
    once, whatever the sensor reads and for however long: the sensor thread
    does not survive its first tick. *)
Theorem as_written_at_most_one_tick_per_call :
  forall interp url sched fl s,
    (length (rotation_stores
               (snd (fst (tavus_cvi_meeting interp module_namespace url sched fl s))))
     <= 1)%nat.
Proof.
  intros interp url sched fl s.
  destruct (as_written_call_ticks_once interp url sched fl s _ _ _ (run_eta _))
    as (t' & -> & _ & L & _).
  rewrite rotation_stores_app. exact L.
Qed.

(** * Properties of the assistant around the pipeline *)

Module AssistantProperties.

Import Assistant.

Lemma ftriple_eq {A B C} (a a' : A) (b b' : B) (c c' : C) :
  (a, b, c) = (a', b', c') -> a' = a /\ b' = b /\ c' = c.
Proof. intros H. injection H as <- <- <-. auto. Qed.

Ltac ftriple H := apply ftriple_eq in H; destruct H as (-> & -> & ->).

(** ** Speech recognition *)

Lemma recognize_speech_eq (m : mic_outcome) (s : system) :
  recognize_speech m s = (s, mic_events m, mic_result m).
Proof.
  destruct m as [[e1|] [e2|] [text|e3]]; try reflexivity.
  destruct e3; reflexivity.
Qed.

Lemma listen_for_phrase_loop_cons phrase st rest s :
  listen_for_phrase_loop phrase (st :: rest) s
  = if clock_in_time st then
      match mic_result (step_mic st) with
      | FReturn text =>
          if is_substring phrase text
          then (s, ClockRead :: mic_events (step_mic st), FReturn true)
          else
            match step_sleep st with
            | Some e =>
                (s, ClockRead :: mic_events (step_mic st) ++ [AsyncSleep 100], FRaise e)
            | None =>
                match listen_for_phrase_loop phrase rest s with
                | (s', t, r) =>
                    (s', ClockRead :: mic_events (step_mic st) ++ [AsyncSleep 100] ++ t, r)
                end
            end
      | FRaise e => (s, ClockRead :: mic_events (step_mic st), FRaise e)
      | FPending => (s, ClockRead :: mic_events (step_mic st), FPending)
      end
    else (s, [ClockRead], FReturn false).
Proof.
  cbn [listen_for_phrase_loop]. unfold fbind at 1. cbn [femit].
  destruct (clock_in_time st); [|reflexivity].
  unfold fbind at 1. rewrite recognize_speech_eq.
  destruct (mic_result (step_mic st)) as [text|e|]; try reflexivity.
  destruct (is_substring phrase text).
  - cbn [fret app]. rewrite app_nil_r. reflexivity.
  - cbv [fbind fexternal femit fraise fret].
    destruct (step_sleep st) as [e|]; [reflexivity|].
    destruct (listen_for_phrase_loop phrase rest s) as [[s' t] r]. reflexivity.
Qed.

Lemma listen_for_phrase_eq phrase timeout steps s :
  listen_for_phrase phrase timeout steps s
  = match listen_for_phrase_loop phrase steps s with
    | (s', t, r) => (s', Deadline timeout :: t, r)
    end.
Proof.
  unfold listen_for_phrase, fbind, femit.
  destruct (listen_for_phrase_loop phrase steps s) as [[s' t] r]. reflexivity.
Qed.

Lemma prefix_split (p t : string) :
  String.prefix p t = true -> exists post, t = (p ++ post)%string.
Proof.
  revert t. induction p as [|a p IH]; intros t H.
  - exists t. reflexivity.
  - destruct t as [|b t]; [discriminate|]. cbn [String.prefix] in H.
    destruct (Ascii.ascii_dec a b) as [->|]; [|discriminate].
    destruct (IH t H) as [post ->]. exists post. reflexivity.
Qed.

(** [is_substring] answers true only on a text that holds the phrase. *)
Lemma is_substring_split (p t : string) :
  is_substring p t = true -> exists pre post, t = (pre ++ p ++ post)%string.
Proof.
  induction t as [|b t IH]; cbn [is_substring]; intros H.
  - rewrite orb_false_r in H. destruct (prefix_split _ _ H) as [post E].
    exists EmptyString, post. exact E.
  - apply orb_true_iff in H. destruct H as [H|H].
    + destruct (prefix_split _ _ H) as [post E]. exists EmptyString, post. exact E.
    + destruct (IH H) as (pre & post & ->). exists (String b pre), post. reflexivity.
Qed.

Lemma is_substring_empty_text (p : string) :
  is_substring p EmptyString = true -> p = EmptyString.
Proof. destruct p; [reflexivity | discriminate]. Qed.

Lemma mic_result_returns m text :
  mic_result m = FReturn text ->
  mic_recognize m = Transcribed text \/ text = EmptyString.
Proof.
  unfold mic_result. destruct (mic_open m); [discriminate|].
  destruct (mic_listen m); [discriminate|].
  destruct (mic_recognize m) as [text'|e].
  - intros H. injection H as <-. left. reflexivity.
  - destruct e; intros H; try discriminate; injection H as <-; right; reflexivity.
Qed.

(** X5: [listen_for_phrase] answers True for a non-empty phrase only when
    one of its recognitions transcribed a text that contains the phrase: a
    recognition that failed, whatever the failure, is never taken for the
    phrase. *)
Theorem heard_only_if_transcribed :
  forall phrase timeout steps s s' t,
    phrase <> EmptyString ->
    listen_for_phrase phrase timeout steps s = (s', t, FReturn true) ->
    exists st text pre post,
      In st steps /\
      mic_recognize (step_mic st) = Transcribed text /\
      text = (pre ++ phrase ++ post)%string.
Proof.
  intros phrase timeout steps s s' t Hne. rewrite listen_for_phrase_eq.
  destruct (listen_for_phrase_loop phrase steps s) as [[s1 t1] r1] eqn:E.
  intros H. injection H as _ _ ->. clear timeout t s'. revert s1 t1 E.
  induction steps as [|st rest IH]; intros s1 t1 E.
  - discriminate.
  - rewrite listen_for_phrase_loop_cons in E.
    destruct (clock_in_time st); [|discriminate].
    destruct (mic_result (step_mic st)) as [text|e|] eqn:Em; try discriminate.
    destruct (is_substring phrase text) eqn:Es.
    + destruct (mic_result_returns _ _ Em) as [Hr | ->].
      * destruct (is_substring_split _ _ Es) as (pre & post & Ht).
        exists st, text, pre, post. split; [left; reflexivity | auto].
      * apply is_substring_empty_text in Es. contradiction.
    + destruct (step_sleep st); [discriminate|].
      destruct (listen_for_phrase_loop phrase rest s) as [[s2 t2] r2] eqn:E2.
      injection E as _ _ ->.
      destruct (IH _ _ eq_refl) as (st' & text' & pre & post & Hin & Hr & Ht).
      exists st', text', pre, post. split; [right; exact Hin | auto].
Qed.

Lemma heard_only_if_transcribed_witness :
  WAKE_WORD <> EmptyString /\
  snd (listen_for_phrase WAKE_WORD 10000
         [in_time (spoken "ok hey skye are you there")] module_loaded)
  = FReturn true /\
  exists st text pre post,
    In st [in_time (spoken "ok hey skye are you there")] /\
    mic_recognize (step_mic st) = Transcribed text /\
    text = (pre ++ WAKE_WORD ++ post)%string.
Proof.
  split; [discriminate|]. split; [vm_compute; reflexivity|].
  apply (heard_only_if_transcribed WAKE_WORD 10000
           [in_time (spoken "ok hey skye are you there")] module_loaded
           (fst (fst (listen_for_phrase WAKE_WORD 10000
                        [in_time (spoken "ok hey skye are you there")] module_loaded)))
           (snd (fst (listen_for_phrase WAKE_WORD 10000
                        [in_time (spoken "ok hey skye are you there")] module_loaded)))).
  - discriminate.
  - vm_compute. reflexivity.
Defined.


Lemma mic_result_as_silence m : mic_result (as_silence m) = mic_result m.
Proof.
  destruct m as [[e1|] [e2|] [text|e3]]; try reflexivity. destruct e3; reflexivity.
Qed.

Lemma mic_events_as_silence m :
  mic_events (as_silence m)
  = filter (fun ev => negb (is_speech_error_log ev)) (mic_events m).
Proof.
  destruct m as [[e1|] [e2|] [text|e3]]; try reflexivity. destruct e3; reflexivity.
Qed.

Lemma listen_for_phrase_loop_as_silence phrase steps s :
  listen_for_phrase_loop phrase (map step_as_silence steps) s
  = match listen_for_phrase_loop phrase steps s with
    | (s', t, r) => (s', filter (fun ev => negb (is_speech_error_log ev)) t, r)
    end.
Proof.
  induction steps as [|st rest IH]; [reflexivity|].
  cbn [map]. rewrite !listen_for_phrase_loop_cons.
  cbn [step_as_silence clock_in_time step_mic step_sleep].
  rewrite mic_result_as_silence, mic_events_as_silence, IH.
  destruct (clock_in_time st); [|reflexivity].
  destruct (mic_result (step_mic st)) as [text|e|]; try reflexivity.
  destruct (is_substring phrase text); [reflexivity|].
  destruct (step_sleep st) as [e|].
  - cbn [filter is_speech_error_log negb]. rewrite filter_app. reflexivity.
  - destruct (listen_for_phrase_loop phrase rest s) as [[s' t] r].
    cbn [filter is_speech_error_log negb]. rewrite !filter_app. reflexivity.
Qed.

(** X6: a recognition that fails with UnknownValueError or RequestError
    counts as silence: [listen_for_phrase] comes back with the same answer
    and the same state as if every such recognition had transcribed the empty
    string, and makes the same calls but for the error it logs each time. *)
Theorem recognition_errors_count_as_silence :
  forall phrase timeout steps s,
    listen_for_phrase phrase timeout (map step_as_silence steps) s
    = (fst (fst (listen_for_phrase phrase timeout steps s)),
       filter (fun ev => negb (is_speech_error_log ev))
              (snd (fst (listen_for_phrase phrase timeout steps s))),
       snd (listen_for_phrase phrase timeout steps s)).
Proof.
  intros phrase timeout steps s.
  rewrite !listen_for_phrase_eq, listen_for_phrase_loop_as_silence.
  destruct (listen_for_phrase_loop phrase steps s) as [[s' t] r]. reflexivity.
Qed.

(** ** The conversation request *)

(** X7: [create_tavus_conversation] never lets a RequestException out: if
    the post, the status check or the decoding raises one, it logs one error
    and returns None; any other exception leaves the function unlogged; when
    nothing raises it returns the value under the key, without logging.  The
    state of the process is not touched. *)
Theorem create_tavus_conversation_absorbs_request_errors :
  forall (p : post_outcome) (s : system),
    fst (fst (create_tavus_conversation p s)) = s /\
    snd (create_tavus_conversation p s)
    = match first_failure p with
      | None => FReturn (response_value p)
      | Some RequestException => FReturn PyNone
      | Some e => FRaise e
      end /\
    fcount is_FLogError (snd (fst (create_tavus_conversation p s)))
    = match first_failure p with
      | Some RequestException => 1%nat
      | _ => 0%nat
      end.
Proof.
  intros p s.
  destruct p as [[e1|] [e2|] [v|e3]];
    try destruct e1; try destruct e2; try destruct e3; try destruct v; repeat split.
Qed.

(** ** The main loop *)

Lemma fbind_inv {A B} (m : F A) (k : A -> F B) s s' t r :
  fbind m k s = (s', t, r) ->
  (exists s1 t1 a t2, m s = (s1, t1, FReturn a) /\ k a s1 = (s', t2, r) /\ t = t1 ++ t2) \/
  (exists e, m s = (s', t, FRaise e) /\ r = FRaise e) \/
  (m s = (s', t, FPending) /\ r = FPending).
Proof.
  unfold fbind. destruct (m s) as [[s1 t1] [a|e|]].
  - destruct (k a s1) as [[s2 t2] r2] eqn:Ek. intros H. ftriple H.
    left. exists s1, t1, a, t2. auto.
  - intros H. ftriple H. right. left. exists e. auto.
  - intros H. ftriple H. right. right. auto.
Qed.

Lemma main_loop_never_returns interp ns rounds s s' t a :
  main_loop interp ns rounds s <> (s', t, FReturn a).
Proof.
  revert s t. induction rounds as [|r rest IH]; intros s t H.
  - discriminate.
  - cbn [main_loop] in H. apply fbind_inv in H.
    destruct H as [(s1 & t1 & a1 & t2 & _ & Hk & _) | [(e & _ & He) | (_ & He)]];
      [exact (IH _ _ Hk) | discriminate | discriminate].
Qed.

Lemma cleanup_eq (s : system) :
  pipeline (in_globals cleanup) s = (cleaned s, map Pipeline cleanup_events, FReturn tt).
Proof. reflexivity. Qed.

Lemma main_eq interp ns rounds s :
  main interp ns rounds s
  = match main_loop interp ns rounds s with
    | (s1, t1, FPending) =>
        (s1, Pipeline (LogInfo "POV Display system initialized. Say 'Hey Skye' to start.")
               :: t1, FPending)
    | (s1, t1, FRaise e) =>
        (cleaned s1,
         Pipeline (LogInfo "POV Display system initialized. Say 'Hey Skye' to start.")
           :: t1 ++ main_exit_log e ++ map Pipeline cleanup_events,
         main_exit_result e)
    | (s1, t1, FReturn a) =>
        (cleaned s1,
         Pipeline (LogInfo "POV Display system initialized. Say 'Hey Skye' to start.")
           :: t1 ++ map Pipeline cleanup_events,
         FReturn a)
    end.
Proof.
  unfold main, ftry_finally, ftry_except.
  cbv [fbind flogger_info flogger_error femit].
  destruct (main_loop interp ns rounds s) as [[s1 t1] [[]|e|]].
  - rewrite cleanup_eq. reflexivity.
  - destruct e as [[x| |]| | | | |]; cbn [main_exit_log main_exit_result is_Exception_any
                                       is_Exception];
      rewrite ?cleanup_eq; cbn [app]; rewrite <- ?app_assoc, ?app_nil_r; reflexivity.
  - reflexivity.
Qed.

(** X8: [main] comes back only because an exception left its loop, and
    then only after [cleanup] has run, as the last thing it does, clearing
    both flags: it returns normally when the exception is a
    KeyboardInterrupt (logged as an interruption) or any Exception (logged
    as an unexpected error), and re-raises anything else. *)
Theorem main_ends_by_exception_and_cleans_up :
  forall interp ns rounds s s' t r,
    main interp ns rounds s = (s', t, r) ->
    r <> FPending ->
    exists e s0 t0,
      main_loop interp ns rounds s = (s0, t0, FRaise e) /\
      s' = cleaned s0 /\
      t = Pipeline (LogInfo "POV Display system initialized. Say 'Hey Skye' to start.")
            :: t0 ++ main_exit_log e ++ map Pipeline cleanup_events /\
      r = main_exit_result e /\
      video_capture_running (sys_globals s') = false /\
      motor_running (sys_globals s') = false.
Proof.
  intros interp ns rounds s s' t r. rewrite main_eq.
  destruct (main_loop interp ns rounds s) as [[s0 t0] [a|e|]] eqn:El.
  - exfalso. exact (main_loop_never_returns _ _ _ _ _ _ _ El).
  - intros H _. ftriple H. exists e, s0, t0. repeat split.
  - intros H Hr. ftriple H. contradiction.
Qed.

Lemma main_ends_witness :
  snd (main INTER_NEAREST module_namespace [silent_round] module_loaded) <> FPending /\
  exists e s0 t0,
    main_loop INTER_NEAREST module_namespace [silent_round] module_loaded
    = (s0, t0, FRaise e) /\
    fst (fst (main INTER_NEAREST module_namespace [silent_round] module_loaded))
    = cleaned s0 /\
    snd (fst (main INTER_NEAREST module_namespace [silent_round] module_loaded))
    = Pipeline (LogInfo "POV Display system initialized. Say 'Hey Skye' to start.")
        :: t0 ++ main_exit_log e ++ map Pipeline cleanup_events /\
    snd (main INTER_NEAREST module_namespace [silent_round] module_loaded)
    = main_exit_result e /\
    video_capture_running
      (sys_globals (fst (fst (main INTER_NEAREST module_namespace [silent_round]
                                module_loaded)))) = false /\
    motor_running
      (sys_globals (fst (fst (main INTER_NEAREST module_namespace [silent_round]
                                module_loaded)))) = false.
Proof.
  assert (Hr : snd (main INTER_NEAREST module_namespace [silent_round] module_loaded)
               <> FPending) by (vm_compute; discriminate).
  split; [exact Hr|].
  exact (main_ends_by_exception_and_cleans_up INTER_NEAREST module_namespace
           [silent_round] module_loaded _ _ _ (run_eta _) Hr).
Defined.


(** X9: an error at the microphone while [main] waits for the wake word
    (nobody speaking for five seconds raises WaitTimeoutError) is caught
    neither by [recognize_speech] nor by [listen_for_phrase]: it ends the
    main loop at once; [main] logs it as an unexpected error, runs [cleanup]
    and returns, whatever rounds were still to come. *)
Theorem microphone_error_while_waiting_ends_main :
  forall interp ns r rest st steps e s,
    wake_steps r = st :: steps ->
    clock_in_time st = true ->
    mic_open (step_mic st) = None ->
    mic_listen (step_mic st) = Some e ->
    is_Exception_any e = true ->
    main interp ns (r :: rest) s
    = (cleaned s,
       [Pipeline (LogInfo "POV Display system initialized. Say 'Hey Skye' to start.");
        Deadline 10000; ClockRead; MicOpen; Pipeline (LogInfo "Listening...");
        MicListen 5 5; MicClose;
        FLogError "An unexpected error occurred" (Some e)]
         ++ map Pipeline cleanup_events,
       FReturn tt).
Proof.
  intros interp ns r rest st steps e s Hsteps Hclock Hopen Hlisten He.
  rewrite main_eq. cbn [main_loop]. unfold fbind at 1. unfold main_body.
  unfold fbind at 1. rewrite listen_for_phrase_eq, Hsteps, listen_for_phrase_loop_cons, Hclock.
  unfold mic_result, mic_events. rewrite Hopen, Hlisten.
  destruct e as [[x| |]| | | | |]; try discriminate; reflexivity.
Qed.

Lemma microphone_error_witness :
  wake_steps silent_round = [in_time silent_mic] /\
  clock_in_time (in_time silent_mic) = true /\
  mic_open (step_mic (in_time silent_mic)) = None /\
  mic_listen (step_mic (in_time silent_mic)) = Some (Base (Exception WaitTimeoutError)) /\
  is_Exception_any (Base (Exception WaitTimeoutError)) = true /\
  main INTER_NEAREST module_namespace [silent_round; silent_round] module_loaded
  = (cleaned module_loaded,
     [Pipeline (LogInfo "POV Display system initialized. Say 'Hey Skye' to start.");
      Deadline 10000; ClockRead; MicOpen; Pipeline (LogInfo "Listening...");
      MicListen 5 5; MicClose;
      FLogError "An unexpected error occurred" (Some (Base (Exception WaitTimeoutError)))]
       ++ map Pipeline cleanup_events,
     FReturn tt).
Proof.
  repeat (split; [reflexivity|]).
  exact (microphone_error_while_waiting_ends_main INTER_NEAREST module_namespace
           silent_round [silent_round] (in_time silent_mic) []
           (Base (Exception WaitTimeoutError)) module_loaded
           eq_refl eq_refl eq_refl eq_refl eq_refl).
Defined.

(** ** No worker outlives a call *)

Lemma tavus_cvi_meeting_ends interp ns url sched fl s s' t r :
  tavus_cvi_meeting interp ns url sched fl s = (s', t, r) ->
  r <> Pending ->
  thread_ended (video_thread s') = true /\ thread_ended (motor_thread s') = true.
Proof.
  rewrite tavus_cvi_meeting_eq.
  destruct (call_loop_spec interp ns sched (started s)) as (s1 & t1 & E1 & L1).
  rewrite E1.
  destruct (call_teardown_spec interp ns fl s1) as (s2 & dv & dm & E2 & _ & _ & Hv & Hm).
  { apply (ls_video_started _ _ _ L1). discriminate. }
  { apply (ls_motor_started _ _ _ L1). discriminate. }
  rewrite E2.
  destruct (loop_result (first_end sched)) as [[]|e|]; intros H Hr; triple H;
    [auto | auto | contradiction].
Qed.

Lemma listen_for_phrase_loop_state phrase steps s :
  fst (fst (listen_for_phrase_loop phrase steps s)) = s.
Proof.
  induction steps as [|st rest IH]; [reflexivity|].
  rewrite listen_for_phrase_loop_cons.
  destruct (clock_in_time st); [|reflexivity].
  destruct (mic_result (step_mic st)) as [text|e|]; try reflexivity.
  destruct (is_substring phrase text); [reflexivity|].
  destruct (step_sleep st); [reflexivity|].
  destruct (listen_for_phrase_loop phrase rest s) as [[s' t] r]. exact IH.
Qed.

Lemma listen_for_phrase_state phrase timeout steps s :
  fst (fst (listen_for_phrase phrase timeout steps s)) = s.
Proof.
  rewrite listen_for_phrase_eq.
  pose proof (listen_for_phrase_loop_state phrase steps s) as H.
  destruct (listen_for_phrase_loop phrase steps s) as [[s' t] r]. exact H.
Qed.

Lemma create_tavus_conversation_state p s :
  fst (fst (create_tavus_conversation p s)) = s.
Proof.
  destruct p as [[e1|] [e2|] [v|e3]];
    try destruct e1; try destruct e2; try destruct e3; try destruct v; reflexivity.
Qed.

Section Keeps.

Variable I : system -> Prop.

Lemma fkeeps_same {A} (m : F A) :
  (forall s, fst (fst (m s)) = s) -> fkeeps I m.
Proof.
  intros Hm s s' t r E _ Hi. specialize (Hm s). rewrite E in Hm. cbn in Hm.
  rewrite Hm. exact Hi.
Qed.

Lemma fkeeps_bind {A B} (m : F A) (k : A -> F B) :
  fkeeps I m -> (forall a, fkeeps I (k a)) -> fkeeps I (fbind m k).
Proof.
  intros Hm Hk s s' t r E Hr Hi. apply fbind_inv in E.
  destruct E as [(s1 & t1 & a & t2 & Em & Ek & _) | [(e & Em & _) | (_ & ->)]].
  - apply (Hk a _ _ _ _ Ek Hr). apply (Hm _ _ _ _ Em); [discriminate | exact Hi].
  - apply (Hm _ _ _ _ Em); [discriminate | exact Hi].
  - contradiction.
Qed.

End Keeps.

(** The session is the same code whatever the value it was called on:
    after [webbrowser.open] it runs lines 114-140. *)
Lemma tavus_cvi_meeting_after_open interp ns url sched fl s :
  tavus_cvi_meeting interp ns url sched fl s
  = match session_after_open interp ns sched fl s with
    | (s', t, r) =>
        (s', LogInfo "Starting Tavus CVI meeting..." :: BrowserOpen url :: t, r)
    end.
Proof.
  unfold tavus_cvi_meeting. fold (call_teardown interp ns fl).
  unfold bind at 1 2. unfold logger_info, emit.
  fold (session_after_open interp ns sched fl).
  destruct (session_after_open interp ns sched fl s) as [[s' t] r]. reflexivity.
Qed.

Lemma session_after_open_ends interp ns sched fl s s' t r :
  session_after_open interp ns sched fl s = (s', t, r) ->
  r <> Pending ->
  thread_ended (video_thread s') = true /\ thread_ended (motor_thread s') = true.
Proof.
  intros E Hr.
  apply (tavus_cvi_meeting_ends interp ns EmptyString sched fl s s'
           (LogInfo "Starting Tavus CVI meeting..." :: BrowserOpen EmptyString :: t) r);
    [|exact Hr].
  rewrite tavus_cvi_meeting_after_open, E. reflexivity.
Qed.

Lemma pipeline_no_worker_alive (m : M system unit) :
  (forall s s' t r,
     m s = (s', t, r) -> r <> Pending ->
     thread_ended (video_thread s') = true /\ thread_ended (motor_thread s') = true) ->
  fkeeps no_worker_alive (pipeline m).
Proof.
  intros Hm s s' t res E Hres _. unfold pipeline in E.
  destruct (m s) as [[s1 t1] r1] eqn:Et.
  assert (Hr1 : r1 <> Pending).
  { intros ->. injection E as _ _ <-. contradiction. }
  destruct (Hm _ _ _ _ Et Hr1) as [Hv Hmt].
  assert (s' = s1) by (destruct r1; injection E as <- _ _; reflexivity). subst s'.
  split; intros Ha; [rewrite Ha in Hv | rewrite Ha in Hmt]; discriminate.
Qed.

Lemma call_tavus_cvi_meeting_no_worker_alive interp ns v r :
  fkeeps no_worker_alive (call_tavus_cvi_meeting interp ns v r).
Proof.
  assert (Hother :
    fkeeps no_worker_alive
      (fbind (flogger_info "Starting Tavus CVI meeting...") (fun _ =>
       fbind (fexternal (BrowserOpenValue v) (open_raises r)) (fun _ =>
       pipeline (session_after_open interp ns (call_sched r) (call_inflight r)))))).
  { apply fkeeps_bind; [apply fkeeps_same; reflexivity | intros _].
    apply fkeeps_bind.
    - apply fkeeps_same. intros s. destruct (open_raises r); reflexivity.
    - intros _. apply pipeline_no_worker_alive. apply session_after_open_ends. }
  destruct v; try exact Hother.
  cbn [call_tavus_cvi_meeting]. apply pipeline_no_worker_alive.
  apply tavus_cvi_meeting_ends.
Qed.

Lemma start_call_no_worker_alive interp ns v r :
  fkeeps no_worker_alive (start_call interp ns v r).
Proof.
  unfold start_call. destruct (truthy v).
  - apply call_tavus_cvi_meeting_no_worker_alive.
  - apply fkeeps_same. reflexivity.
Qed.

Lemma main_body_no_worker_alive interp ns r :
  fkeeps no_worker_alive (main_body interp ns r).
Proof.
  unfold main_body.
  apply fkeeps_bind; [apply fkeeps_same; apply listen_for_phrase_state | intros heard].
  destruct heard; [|apply fkeeps_same; reflexivity].
  apply fkeeps_bind; [apply fkeeps_same; reflexivity | intros _].
  apply fkeeps_bind; [apply fkeeps_same; apply listen_for_phrase_state | intros triggered].
  destruct triggered; [|apply fkeeps_same; reflexivity].
  apply fkeeps_bind; [apply fkeeps_same; apply create_tavus_conversation_state | intros v].
  apply start_call_no_worker_alive.
Qed.

Lemma main_loop_no_worker_alive interp ns rounds :
  fkeeps no_worker_alive (main_loop interp ns rounds).
Proof.
  induction rounds as [|r rest IH]; cbn [main_loop].
  - intros s s' t res E Hres. injection E as _ _ <-. contradiction.
  - apply fkeeps_bind; [apply main_body_no_worker_alive | intros _; exact IH].
Qed.

(** X10: if no worker thread is alive when [main] starts, none is alive
    when it comes back, however many calls were made and however each of
    them and [main] itself ended: every call that came back had joined its
    two threads. *)
Theorem main_leaves_no_worker_alive :
  forall interp ns rounds s s' t r,
    no_worker_alive s ->
    main interp ns rounds s = (s', t, r) ->
    r <> FPending ->
    no_worker_alive s'.
Proof.
  intros interp ns rounds s s' t r Hi. rewrite main_eq.
  destruct (main_loop interp ns rounds s) as [[s0 t0] r0] eqn:El.
  pose proof (main_loop_no_worker_alive interp ns rounds _ _ _ _ El) as Hk.
  destruct r0 as [a|e|]; intros H Hr; ftriple H.
  - apply (Hk ltac:(discriminate) Hi).
  - apply (Hk ltac:(discriminate) Hi).
  - contradiction.
Qed.

Lemma main_leaves_no_worker_alive_witness :
  no_worker_alive module_loaded /\
  snd (main INTER_NEAREST module_namespace [call_round; silent_round] module_loaded)
  <> FPending /\
  no_worker_alive (fst (fst (main INTER_NEAREST module_namespace
                               [call_round; silent_round] module_loaded))).
Proof.
  assert (Hi : no_worker_alive module_loaded) by (split; discriminate).
  assert (Hr : snd (main INTER_NEAREST module_namespace [call_round; silent_round]
                      module_loaded) <> FPending) by (vm_compute; discriminate).
  split; [exact Hi|]. split; [exact Hr|].
  exact (main_leaves_no_worker_alive INTER_NEAREST module_namespace
           [call_round; silent_round] module_loaded _ _ _ Hi (run_eta _) Hr).
Defined.


(** ** Properties of the whole trace of [main] *)


Section MainTrace.

Variable interp : ndarray -> nat * nat -> nat -> nat -> nat -> Byte.byte.
Variable ns : namespace.
Variable P : list front_event -> Prop.

Hypothesis P_nil : P [].
Hypothesis P_app : forall t1 t2, P t1 -> P t2 -> P (t1 ++ t2).
Hypothesis P_plain : forall ev, front_plain ev = true -> P [ev].
Hypothesis P_mic : forall m, P (mic_events m).
Hypothesis P_call :
  forall url sched fl s,
    url <> EmptyString ->
    P (map Pipeline (snd (fst (tavus_cvi_meeting interp ns url sched fl s)))).
Hypothesis P_open : forall v, truthy v = true -> P [BrowserOpenValue v].
Hypothesis P_session :
  forall sched fl s,
    P (map Pipeline (snd (fst (session_after_open interp ns sched fl s)))).
Hypothesis P_cleanup : P (map Pipeline cleanup_events).

Ltac plain_trace :=
  repeat match goal with
         | |- P (?ev :: ?rest) =>
             change (P ([ev] ++ rest)); apply P_app; [apply P_plain; reflexivity|]
         end;
  try exact P_nil.

Lemma fholds_bind {A B} (m : F A) (k : A -> F B) :
  fholds P m -> (forall a, fholds P (k a)) -> fholds P (fbind m k).
Proof.
  intros Hm Hk s s' t r E. apply fbind_inv in E.
  destruct E as [(s1 & t1 & a & t2 & Em & Ek & ->) | [(e & Em & _) | (Em & _)]].
  - apply P_app; [eapply Hm | eapply Hk]; eassumption.
  - eapply Hm; eassumption.
  - eapply Hm; eassumption.
Qed.

Lemma fholds_plain ev : front_plain ev = true -> fholds P (femit ev).
Proof. intros Hev s s' t r E. ftriple E. apply P_plain. exact Hev. Qed.

Lemma fholds_ret {A} (a : A) : fholds P (fret a).
Proof. intros s s' t r E. ftriple E. exact P_nil. Qed.

Lemma listen_for_phrase_loop_holds phrase steps :
  fholds P (listen_for_phrase_loop phrase steps).
Proof.
  induction steps as [|st rest IH]; intros s s' t r E.
  - ftriple E. exact P_nil.
  - rewrite listen_for_phrase_loop_cons in E.
    destruct (clock_in_time st); [|ftriple E; plain_trace].
    assert (Hhead : forall tl, P tl -> P (ClockRead :: mic_events (step_mic st) ++ tl)).
    { intros tl Htl. change (P ([ClockRead] ++ mic_events (step_mic st) ++ tl)).
      apply P_app; [apply P_plain; reflexivity|]. apply P_app; [apply P_mic | exact Htl]. }
    assert (Hhead0 : P (ClockRead :: mic_events (step_mic st))).
    { rewrite <- (app_nil_r (mic_events (step_mic st))). apply Hhead. exact P_nil. }
    destruct (mic_result (step_mic st)) as [text|e|]; try (ftriple E; exact Hhead0).
    destruct (is_substring phrase text); [ftriple E; exact Hhead0|].
    destruct (step_sleep st) as [e|].
    + ftriple E. apply Hhead. plain_trace.
    + destruct (listen_for_phrase_loop phrase rest s) as [[s1 t1] r1] eqn:E1.
      ftriple E. apply Hhead.
      change (P ([AsyncSleep 100] ++ t1)). apply P_app; [apply P_plain; reflexivity|].
      eapply IH. exact E1.
Qed.

Lemma listen_for_phrase_holds phrase timeout steps :
  fholds P (listen_for_phrase phrase timeout steps).
Proof.
  unfold listen_for_phrase.
  apply fholds_bind; [apply fholds_plain; reflexivity | intros _].
  apply listen_for_phrase_loop_holds.
Qed.

Lemma create_tavus_conversation_holds p : fholds P (create_tavus_conversation p).
Proof.
  intros s s' t r E.
  destruct p as [[e1|] [e2|] [v|e3]];
    try destruct e1; try destruct e2; try destruct e3; try destruct v;
    cbv [create_tavus_conversation ftry_except fbind fexternal femit fraise fret
         flogger_error post_raises status_raises json_result py_get app] in E;
    ftriple E; plain_trace.
Qed.

Lemma pipeline_holds {A} (m : M system A) :
  (forall s, P (map Pipeline (snd (fst (m s))))) -> fholds P (pipeline m).
Proof.
  intros Hm s s' t res E. unfold pipeline in E. specialize (Hm s).
  destruct (m s) as [[s1 t1] [a|e|]]; ftriple E; exact Hm.
Qed.

Lemma call_tavus_cvi_meeting_holds v r :
  truthy v = true -> fholds P (call_tavus_cvi_meeting interp ns v r).
Proof.
  intros Hv.
  assert (Hother :
    fholds P
      (fbind (flogger_info "Starting Tavus CVI meeting...") (fun _ =>
       fbind (fexternal (BrowserOpenValue v) (open_raises r)) (fun _ =>
       pipeline (session_after_open interp ns (call_sched r) (call_inflight r)))))).
  { apply fholds_bind; [apply fholds_plain; reflexivity | intros _].
    apply fholds_bind.
    - intros s s' t res E. cbv [fexternal fbind femit fraise fret] in E.
      destruct (open_raises r); ftriple E; apply P_open; exact Hv.
    - intros _. apply pipeline_holds. intros s. apply P_session. }
  destruct v as [|b|n|x|url|items|items]; try exact Hother.
  cbn [call_tavus_cvi_meeting]. apply pipeline_holds. intros s. apply P_call.
  cbn [truthy] in Hv. apply negb_true_iff in Hv. apply String.eqb_neq. exact Hv.
Qed.

Lemma start_call_holds v r : fholds P (start_call interp ns v r).
Proof.
  unfold start_call. destruct (truthy v) eqn:Hv.
  - apply call_tavus_cvi_meeting_holds. exact Hv.
  - apply fholds_plain. reflexivity.
Qed.

Lemma main_body_holds r : fholds P (main_body interp ns r).
Proof.
  unfold main_body.
  apply fholds_bind; [apply listen_for_phrase_holds | intros heard].
  destruct heard; [|apply fholds_ret].
  apply fholds_bind; [apply fholds_plain; reflexivity | intros _].
  apply fholds_bind; [apply listen_for_phrase_holds | intros triggered].
  destruct triggered; [|apply fholds_plain; reflexivity].
  apply fholds_bind; [apply create_tavus_conversation_holds | intros v].
  apply start_call_holds.
Qed.

Lemma main_loop_holds rounds : fholds P (main_loop interp ns rounds).
Proof.
  induction rounds as [|r rest IH]; cbn [main_loop].
  - intros s s' t res E. ftriple E. exact P_nil.
  - apply fholds_bind; [apply main_body_holds | intros _; exact IH].
Qed.

Lemma main_holds rounds s : P (snd (fst (main interp ns rounds s))).
Proof.
  rewrite main_eq.
  destruct (main_loop interp ns rounds s) as [[s1 t1] r1] eqn:El.
  pose proof (main_loop_holds rounds _ _ _ _ El) as H1.
  assert (Hexit : forall e, P (main_exit_log e)).
  { intros e. destruct e as [[x| |]| | | | |]; cbn [main_exit_log is_Exception_any is_Exception];
      plain_trace. }
  destruct r1 as [a|e|]; cbn [fst snd].
  - change (P ([Pipeline (LogInfo "POV Display system initialized. Say 'Hey Skye' to start.")]
               ++ t1 ++ map Pipeline cleanup_events)).
    apply P_app; [apply P_plain; reflexivity|]. apply P_app; assumption.
  - change (P ([Pipeline (LogInfo "POV Display system initialized. Say 'Hey Skye' to start.")]
               ++ t1 ++ main_exit_log e ++ map Pipeline cleanup_events)).
    apply P_app; [apply P_plain; reflexivity|]. apply P_app; [assumption|].
    apply P_app; [apply Hexit | assumption].
  - change (P ([Pipeline (LogInfo "POV Display system initialized. Say 'Hey Skye' to start.")]
               ++ t1)).
    apply P_app; [apply P_plain; reflexivity | assumption].
Qed.

End MainTrace.



Lemma bt_events_no_browser o (data : bytes) : no_browser (bt_events o data).
Proof.
  destruct o as [[?|] [?|] [?|] [?|]]; repeat constructor.
Qed.

Lemma no_browser_app t1 t2 : no_browser t1 -> no_browser t2 -> no_browser (t1 ++ t2).
Proof. intros H1 H2. apply Forall_app. split; assumption. Qed.

Lemma opened_values_app (t1 t2 : list front_event) :
  opened_values (t1 ++ t2) = opened_values t1 ++ opened_values t2.
Proof.
  induction t1 as [|ev t1 IH]; [reflexivity|].
  destruct ev as [[]| | | | | | | | | | | |]; cbn [app opened_values];
    rewrite IH; reflexivity.
Qed.

Lemma opened_values_no_browser (t : list event) :
  no_browser t -> opened_values (map Pipeline t) = [].
Proof.
  induction 1 as [|ev t Hev _ IH]; [reflexivity|].
  destruct ev; cbn [map opened_values]; try exact IH. contradiction.
Qed.

(** After the prologue a call opens no browser window. *)
Lemma call_opens_its_url_only interp ns url sched fl s :
  exists t',
    snd (fst (tavus_cvi_meeting interp ns url sched fl s)) = prologue_events url ++ t' /\
    no_browser t'.
Proof.
  destruct (tavus_cvi_meeting_obeys interp ns (on_trace no_browser)) with
    (url := url) (sched := sched) (fl := fl) (s := s)
    (s' := fst (fst (tavus_cvi_meeting interp ns url sched fl s)))
    (t := snd (fst (tavus_cvi_meeting interp ns url sched fl s)))
    (r := snd (tavus_cvi_meeting interp ns url sched fl s))
    as (t' & E & Ht').
  - split; unfold on_trace; [constructor | intros; apply no_browser_app; assumption].
  - intros ev s0 Hev. destruct ev; try discriminate; repeat constructor.
  - intros b s0. repeat constructor.
  - intros b s0. repeat constructor.
  - intros t s0 _. constructor.
  - intros c o s0 s0' t r _ H. apply thread_body_trace in H.
    destruct H as (g' & r' & H & _). apply capture_and_process_video_body_trace in H.
    destruct H as [-> | (payload & _ & ->)]; [repeat constructor|].
    change (no_browser ([Grab] ++ bt_events o payload ++ then_sleep 10 (bt_result o))).
    repeat apply no_browser_app; [repeat constructor | apply bt_events_no_browser |].
    destruct (then_sleep_plain 10 (bt_result o)) as [-> | ->]; repeat constructor.
  - intros p s0 s0' t r _ H. apply thread_body_trace in H.
    destruct H as (g' & r' & H & _). apply motor_sync_body_trace in H.
    destruct H as [(_ & ->) | [(_ & _ & -> & _) | (f & _ & _ & ->)]];
      [repeat constructor | repeat constructor |].
    repeat apply no_browser_app; [repeat constructor | apply bt_events_no_browser |].
    destruct (then_sleep_plain 1 (bt_result (poll_bt p))) as [-> | ->]; repeat constructor.
  - apply run_eta.
  - exists t'. split; [exact E | exact Ht'].
Qed.

Lemma call_opened_values interp ns url sched fl s :
  opened_values (map Pipeline (snd (fst (tavus_cvi_meeting interp ns url sched fl s))))
  = [PyStr url].
Proof.
  destruct (call_opens_its_url_only interp ns url sched fl s) as (t' & -> & Ht').
  rewrite map_app, opened_values_app, (opened_values_no_browser _ Ht').
  reflexivity.
Qed.

Lemma session_after_open_opened_values interp ns sched fl s :
  opened_values (map Pipeline (snd (fst (session_after_open interp ns sched fl s)))) = [].
Proof.
  pose proof (call_opened_values interp ns EmptyString sched fl s) as H.
  rewrite tavus_cvi_meeting_after_open in H.
  destruct (session_after_open interp ns sched fl s) as [[s' t] r].
  cbn [fst snd map opened_values] in H |- *. injection H as H. exact H.
Qed.

(** X12: in any run of [main], [webbrowser.open] is only ever called on a
    value that [if conversation_url:] took for true: never on None, on an
    empty string, on 0, on False or on an empty list or dict.  The value
    need not be a URL, nor a string. *)
Theorem main_opens_browser_only_on_truthy_values :
  forall interp ns rounds s,
    opens_on_truthy (snd (fst (main interp ns rounds s))).
Proof.
  intros interp ns rounds s. apply main_holds; unfold opens_on_truthy.
  - constructor.
  - intros t1 t2 H1 H2. rewrite opened_values_app. apply Forall_app. split; assumption.
  - intros ev Hev. destruct ev as [[]| | | | | | | | | | | |]; try discriminate;
      constructor.
  - intros m. destruct m as [[e1|] [e2|] [text|e3]]; try constructor.
    destruct e3; constructor.
  - intros url sched fl s0 Hurl. rewrite call_opened_values.
    constructor; [|constructor]. cbn [truthy]. apply negb_true_iff.
    apply String.eqb_neq. exact Hurl.
  - intros v Hv. constructor; [exact Hv | constructor].
  - intros sched fl s0. rewrite session_after_open_opened_values. constructor.
  - constructor.
Qed.

(** A response whose conversation_url is the number 5 passes the [if]: the
    call is started and [webbrowser.open] is called on the number.  When the
    browser module raises TypeError on it, no thread has been started yet;
    the exception ends [main], which logs it and cleans up. *)
Lemma number_answer_reaches_the_browser :
  opened_values
    (snd (fst (main INTER_NEAREST module_namespace [number_round] module_loaded)))
  = [PyInt 5] /\
  snd (main INTER_NEAREST module_namespace [number_round] module_loaded) = FReturn tt /\
  fst (fst (main INTER_NEAREST module_namespace [number_round] module_loaded))
  = cleaned module_loaded.
Proof. repeat split; vm_compute; reflexivity. Qed.

End AssistantProperties.
